(** * OM1 utilities: configuration interpolation and the GPS Fabric connector

    A shallow embedding of

    - [src/utils/config_interpolation.py]: [interpolate_env_vars] and
      [_interpolate_string] (a single [re.sub] pass over every string leaf of
      a configuration tree), and
    - [src/actions/gps/connector/fabric.py]: [GPSFabricConnector.connect] and
      [GPSFabricConnector.send_coordinates] (one JSON-RPC call over HTTP with
      a [try]/[except] dispatch), with [GPSFabricConfig] and the constructor,
      and
    - [src/utils/conversation_exporter.py]: [export_to_json] and
      [export_to_markdown] (the data and the text that they build, and how
      the write of the file ends).

    How the Python is modelled:

    - a [str] is the [string] of the bytes of its UTF-8 encoding, a lone
      surrogate being written as its three bytes (the encoding that Python
      calls [surrogatepass]).  The pattern tells apart only the ASCII
      characters [$], [{], [}], [:], [-] and the line feed, and no byte of
      another character is an ASCII byte, so the scan over the bytes finds
      the matches of the scan over the characters;
    - [os.environ] is a [gmap string string] and [os.environ.get] its
      lookup, on POSIX with the UTF-8 filesystem encoding: a name that
      holds a lone surrogate not produced by [surrogateescape] cannot be
      encoded, and the lookup raises [UnicodeEncodeError];
    - the recursion of [interpolate_env_vars] is bounded by the room that
      the interpreter's recursion limit leaves: the call takes the number of
      nested calls there is room for, and raises [RecursionError] when none
      is left.  What is proved of a call that returns is proved under the
      hypothesis that this number covers the depth of the configuration;
    - the regular expression is a syntax tree run by a backtracking matcher
      with Python's priorities (greedy [+] and [?], lazy [*?]), and [re.sub]
      is the left-to-right scan over it;
    - a [dict] that is only traversed or probed is the list of its items in
      insertion order; [None] of a JSON value is [JNull];
    - a call that can raise returns a [result]; the exceptions are the
      subclasses of [Exception], told apart as the [except] clauses of
      [send_coordinates] tell them apart;
    - the effects of [send_coordinates] (log records, reads of dynamic
      variables, the HTTP request) are the events of a trace; the network and
      the [IOProvider] are a [world] that the call is given.  The function
      returns [None] on every path: the outcome of a call is the one that its
      last log record reports. *)

From stdpp Require Import base option list strings gmap pretty.
From Stdlib Require Import ZArith Ascii String PrimFloat.

Local Open Scope string_scope.

(** [simpl] unfolds an append whose first argument starts with a character. *)
#[global] Arguments String.append !s1 s2 : simpl nomatch.
#[global] Arguments Ascii.eqb : simpl never.

(* ================================================================== *)
(** * Strings *)

Module Str.

(** [s[:n]] *)
Fixpoint take (n : nat) (s : string) : string :=
  match n, s with
  | S n', String c s' => String c (take n' s')
  | _, _ => ""
  end.

(** The text between two positions of one scan: [s] is the input left at the
    first position, [rest] the input left at the second. *)
Definition consumed (s rest : string) : string :=
  take (String.length s - String.length rest) s.

(** [c in s] for a character. *)
Fixpoint mem (c : ascii) (s : string) : bool :=
  match s with
  | "" => false
  | String c' s' => Ascii.eqb c c' || mem c s'
  end.

(** [s.startswith(p)] *)
Fixpoint starts_with (p s : string) : bool :=
  match p, s with
  | "", _ => true
  | String a p', String b s' => Ascii.eqb a b && starts_with p' s'
  | String _ _, "" => false
  end.

(** [p in s] for strings: [p] occurs in [s] as a substring. *)
Fixpoint contains (p s : string) : bool :=
  starts_with p s ||
  match s with
  | "" => false
  | String _ s' => contains p s'
  end.

End Str.

(* ================================================================== *)
(** * Python results: a value or a raised exception *)

Module Py.

(** The exception classes that the two programs can meet, as far as their
    [except] clauses tell them apart.  [requests.exceptions] has classes
    below [RequestException] that are also [ValueError]s (the library's own
    [JSONDecodeError] since 2.27, [InvalidURL], [MissingSchema]). *)
Inductive exn : Type :=
  | TypeError
  | ValueError                 (* a ValueError outside requests, such as
                                  json.JSONDecodeError *)
  | ReqTimeout                 (* requests.exceptions.Timeout and below *)
  | ReqHTTPError               (* requests.exceptions.HTTPError *)
  | ReqValueError              (* below RequestException and ValueError *)
  | ReqOther                   (* any other RequestException *)
  | OtherException (name : string).  (* any other subclass of Exception *)

Inductive result (A : Type) : Type :=
  | Ok (a : A)
  | Raise (e : exn).
Arguments Ok {A} a.
Arguments Raise {A} e.

#[global] Instance result_ret : MRet result := fun A a => Ok a.
#[global] Instance result_bind : MBind result := fun A B f m =>
  match m with
  | Ok a => f a
  | Raise e => Raise e
  end.
#[global] Instance result_fmap : FMap result := fun A B f m =>
  match m with
  | Ok a => Ok (f a)
  | Raise e => Raise e
  end.

(** [isinstance(e, C)] for the classes named in [except] clauses. *)
Definition is_Timeout (e : exn) : bool :=
  match e with ReqTimeout => true | _ => false end.

Definition is_HTTPError (e : exn) : bool :=
  match e with ReqHTTPError => true | _ => false end.

Definition is_RequestException (e : exn) : bool :=
  match e with
  | ReqTimeout | ReqHTTPError | ReqValueError | ReqOther => true
  | _ => false
  end.

Definition is_ValueError (e : exn) : bool :=
  match e with
  | ValueError | ReqValueError => true
  | _ => false
  end.

(** The call returned: no exception left it. *)
Definition returns {A : Type} (m : result A) : Prop := exists a, m = Ok a.

End Py.

(* ================================================================== *)
(** * The fragment of Python's [re] used by the interpolation pattern *)

Module Re.

(** Sets of characters that a quantifier ranges over. *)
Inductive cclass : Type :=
  | Dot                        (* [.] without DOTALL: any character but LF *)
  | NoneOf (cs : list ascii).  (* [[^...]] *)

Definition accepts (k : cclass) (c : ascii) : bool :=
  match k with
  | Dot => negb (Ascii.eqb c "010")
  | NoneOf cs => negb (existsb (Ascii.eqb c) cs)
  end.

Inductive regex : Type :=
  | Lit (c : ascii)                (* an escaped or plain literal *)
  | Seq (r1 r2 : regex)
  | Plus (k : cclass)              (* [k+], greedy *)
  | LazyStar (k : cclass)          (* [k*?], lazy *)
  | Opt (r : regex)                (* [(?:r)?], greedy *)
  | Group (i : nat) (r : regex).   (* capturing group number [i] *)

(** Captured groups; a group that took no part in the match is absent,
    which is Python's [None]. *)
Abbreviation captures := (gmap nat string).

Section Backtrack.
Context {R : Type}.

Abbreviation cont := (string -> captures -> option R).

(** [k*] taking as many characters as it can, giving them back one at a
    time while the rest of the pattern fails. *)
Fixpoint greedy (k : cclass) (s : string) (g : captures) (kont : cont)
  : option R :=
  match s with
  | String c s' =>
      if accepts k c then
        match greedy k s' g kont with
        | Some r => Some r
        | None => kont s g
        end
      else kont s g
  | "" => kont s g
  end.

(** [k*?] taking as few characters as it can, one more each time the rest
    of the pattern fails. *)
Fixpoint lazy (k : cclass) (s : string) (g : captures) (kont : cont)
  : option R :=
  match kont s g with
  | Some r => Some r
  | None =>
      match s with
      | String c s' => if accepts k c then lazy k s' g kont else None
      | "" => None
      end
  end.

(** The backtracking matcher, in continuation-passing style: [kont] is the
    rest of the pattern. *)
Fixpoint run (r : regex) (s : string) (g : captures) (kont : cont)
  : option R :=
  match r with
  | Lit c =>
      match s with
      | String c' s' => if Ascii.eqb c c' then kont s' g else None
      | "" => None
      end
  | Seq r1 r2 => run r1 s g (fun s' g' => run r2 s' g' kont)
  | Plus k =>
      match s with
      | String c s' => if accepts k c then greedy k s' g kont else None
      | "" => None
      end
  | LazyStar k => lazy k s g kont
  | Opt r' =>
      match run r' s g kont with
      | Some x => Some x
      | None => kont s g
      end
  | Group i r' =>
      run r' s g (fun s' g' => kont s' (<[i := Str.consumed s s']> g'))
  end.
End Backtrack.

(** A match object: [group(0)] and the numbered groups. *)
Record match_object : Type := MatchObject {
  group0 : string;
  groups : captures
}.

(** [m.group(i)] for [i >= 1]. *)
Definition group (m : match_object) (i : nat) : option string := groups m !! i.

(** [pattern.match(s)]: a match anchored at the start of [s]. *)
Definition match_at (r : regex) (s : string) : option match_object :=
  run r s ∅ (fun s' g => Some (MatchObject (Str.consumed s s') g)).

End Re.

(* ================================================================== *)
(** * src/utils/config_interpolation.py *)

Module ConfigInterpolation.
Import Py Re.

(** [re.sub(pattern, repl, s)] with a callable [repl]: the scan goes left to
    right, a match is replaced by [repl]'s result and the scan goes on behind
    it, a character at which the pattern does not match is copied.  [skip]
    counts the characters of the last match that are still to be passed
    over.  After an empty match the character at that position is copied. *)
Fixpoint sub_from (r : regex) (repl : match_object -> result string)
    (skip : nat) (s : string) : result string :=
  match skip with
  | S n =>
      match s with
      | String _ s' => sub_from r repl n s'
      | "" => Ok ""
      end
  | O =>
      match match_at r s with
      | Some m =>
          out ← repl m;
          rest ← match s with
                 | String c s' =>
                     match String.length (group0 m) with
                     | S n => sub_from r repl n s'
                     | O => String c <$> sub_from r repl 0 s'
                     end
                 | "" => Ok ""
                 end;
          Ok (out +:+ rest)
      | None =>
          match s with
          | String c s' => String c <$> sub_from r repl 0 s'
          | "" => Ok ""
          end
      end
  end.

Definition re_sub (r : regex) (repl : match_object -> result string)
    (s : string) : result string :=
  sub_from r repl 0 s.

(** [pattern = r"\$\{([^}:]+)(?::-(.*?))?\}"] *)
Definition pattern : regex :=
  Seq (Lit "$") (Seq (Lit "{")
    (Seq (Group 1 (Plus (NoneOf ["}"; ":"]%char)))
      (Seq (Opt (Seq (Lit ":") (Seq (Lit "-") (Group 2 (LazyStar Dot)))))
        (Lit "}")))).

(** The second byte of a lone surrogate that [surrogateescape] does not
    produce: U+D800 to U+DFFF are the bytes ED A0 80 to ED BF BF, of which
    U+DC80 to U+DCFF (ED B2 80 to ED B3 BF) stand for the raw bytes 80 to
    FF. *)
Definition unescapable (d : ascii) : bool :=
  let n := nat_of_ascii d in
  (160 <=? n)%nat && (n <=? 191)%nat
  && negb ((n =? 178)%nat || (n =? 179)%nat).

(** [key.encode("utf-8", "surrogateescape")] raises nothing: no lone
    surrogate other than the escapes of raw bytes occurs in [key]. *)
Fixpoint encodable (key : string) : bool :=
  match key with
  | "" => true
  | String c rest =>
      match rest with
      | String d _ =>
          negb (Ascii.eqb c "237" && unescapable d) && encodable rest
      | "" => true
      end
  end.

(** The lone surrogate U+D800, that a JSON5 file writes as a
    backslash, [u] and [d800]. *)
Definition U_D800 : string := String "237" (String "160" (String "128" "")).

(** [os.environ.get(key)]: the value, [None] when the variable is not set.
    A key that is not a string raises [TypeError]; a key that cannot be
    encoded raises [UnicodeEncodeError], which is a [ValueError]. *)
Definition environ_get (environ : gmap string string) (key : option string)
    : result (option string) :=
  match key with
  | Some name =>
      if encodable name then Ok (environ !! name) else Raise ValueError
  | None => Raise TypeError
  end.

Definition replacer (environ : gmap string string) (m : match_object)
    : result string :=
  let var_name := group m 1 in
  let default_value := group m 2 in
  env_value ← environ_get environ var_name;
  match env_value with
  | Some v => Ok v
  | None =>
      match default_value with
      | Some d => Ok d
      | None => Ok (group0 m)
      end
  end.

Definition _interpolate_string (environ : gmap string string) (value : string)
    : result string :=
  re_sub pattern (replacer environ) value.

(** Values that are neither [str] nor [dict] nor [list]. *)
Inductive scalar : Type :=
  | PyNone
  | PyBool (b : bool)
  | PyInt (z : Z)
  | PyFloat (f : PrimFloat.float).

(** A configuration value as loaded from a JSON5 file.  A [dict] is kept as
    the list of its items in insertion order. *)
#[warnings="-register-all"]
Inductive config : Type :=
  | CStr (s : string)
  | CDict (items : list (string * config))
  | CList (elems : list config)
  | COther (v : scalar).

(** [RecursionError], raised by a call for which the recursion limit
    leaves no room. *)
Definition RecursionError : exn := OtherException "RecursionError".

(** [limit] is the number of nested calls of [interpolate_env_vars] that
    there is room for when the call is made, each with the calls that it
    makes in turn (the comprehension, [_interpolate_string], [re.sub], the
    replacer and the lookup).  A call for which no room is left raises
    [RecursionError]. *)
Fixpoint interpolate_env_vars (limit : nat) (environ : gmap string string)
    (c : config) {struct c} : result config :=
  match limit with
  | O => Raise RecursionError
  | S room =>
      match c with
      | CStr s => CStr <$> _interpolate_string environ s
      | CDict kvs =>
          CDict <$>
            (fix items (l : list (string * config))
               : result (list (string * config)) :=
               match l with
               | [] => Ok []
               | (k, v) :: l' =>
                   v' ← interpolate_env_vars room environ v;
                   r ← items l';
                   Ok ((k, v') :: r)
               end) kvs
      | CList xs =>
          CList <$>
            (fix elems (l : list config) : result (list config) :=
               match l with
               | [] => Ok []
               | item :: l' =>
                   item' ← interpolate_env_vars room environ item;
                   r ← elems l';
                   Ok (item' :: r)
               end) xs
      | COther v => Ok (COther v)
      end
  end.

(** The number of nested calls that a configuration takes: one for the
    value itself and, for a dictionary or a list, those of its deepest
    member. *)
Fixpoint depth (c : config) : nat :=
  match c with
  | CStr _ => 1
  | CDict kvs =>
      S ((fix items (l : list (string * config)) : nat :=
            match l with
            | [] => 0
            | (_, v) :: l' => Nat.max (depth v) (items l')
            end) kvs)
  | CList xs =>
      S ((fix elems (l : list config) : nat :=
            match l with
            | [] => 0
            | item :: l' => Nat.max (depth item) (elems l')
            end) xs)
  | COther _ => 1
  end.

(** The string values of a configuration, left to right (dictionary keys
    are not among them). *)
Fixpoint strings (c : config) : list string :=
  match c with
  | CStr s => [s]
  | CDict kvs =>
      (fix items (l : list (string * config)) : list string :=
         match l with
         | [] => []
         | (_, v) :: l' => (strings v ++ items l')%list
         end) kvs
  | CList xs =>
      (fix elems (l : list config) : list string :=
         match l with
         | [] => []
         | item :: l' => (strings item ++ elems l')%list
         end) xs
  | COther _ => []
  end.

End ConfigInterpolation.

(* ================================================================== *)
(** * Placeholders, read off the pattern

    A direct reading of what the pattern accepts at one position, and of the
    text a placeholder stands for.  [Placeholder.parse] is proved below to
    agree with the backtracking matcher on [ConfigInterpolation.pattern]. *)

Module Placeholder.

Definition LF : ascii := "010"%char.

(** A character of NAME: anything but the closing brace and the colon. *)
Definition name_char (c : ascii) : bool :=
  negb (Ascii.eqb c "}") && negb (Ascii.eqb c ":").

(** A character of DEFAULT as the pattern takes it: anything but the closing
    brace and the line feed. *)
Definition default_char (c : ascii) : bool :=
  negb (Ascii.eqb c "}") && negb (Ascii.eqb c LF).

(** A character of DEFAULT as the specification words it: anything but the
    closing brace. *)
Definition spec_default_char (c : ascii) : bool := negb (Ascii.eqb c "}").

Fixpoint all_chars (p : ascii -> bool) (s : string) : bool :=
  match s with
  | "" => true
  | String c s' => p c && all_chars p s'
  end.

(** The longest prefix of characters satisfying [p], and what follows. *)
Fixpoint span (p : ascii -> bool) (s : string) : string * string :=
  match s with
  | "" => ("", "")
  | String c s' =>
      if p c then let '(a, b) := span p s' in (String c a, b)
      else ("", s)
  end.

(** DEFAULT and the text behind its closing brace: up to the first closing
    brace, unless a line feed comes first. *)
Fixpoint scan_default (s : string) : option (string * string) :=
  match s with
  | "" => None
  | String c s' =>
      if Ascii.eqb c "}" then Some ("", s')
      else if Ascii.eqb c LF then None
      else '(d, r) ← scan_default s'; Some (String c d, r)
  end.

(** The placeholder that starts [s], if one does: NAME, DEFAULT when there
    is one, and the text behind the placeholder. *)
Definition parse (s : string) : option (string * option string * string) :=
  match s with
  | String c0 (String c1 s1) =>
      if Ascii.eqb c0 "$" && Ascii.eqb c1 "{" then
        let '(name, s2) := span name_char s1 in
        match name, s2 with
        | "", _ => None
        | _, String c2 s3 =>
            if Ascii.eqb c2 "}" then Some (name, None, s3)
            else
              match s3 with
              | String c3 s4 =>
                  if Ascii.eqb c2 ":" && Ascii.eqb c3 "-" then
                    '(d, s5) ← scan_default s4; Some (name, Some d, s5)
                  else None
              | "" => None
              end
        | _, "" => None
        end
      else None
  | _ => None
  end.

(** The text of a placeholder. *)
Definition render (name : string) (default : option string) : string :=
  match default with
  | None => "${" +:+ name +:+ "}"
  | Some d => "${" +:+ name +:+ ":-" +:+ d +:+ "}"
  end.

(** The groups of a match on a placeholder. *)
Definition groups_of (name : string) (default : option string) : gmap nat string :=
  match default with
  | None => <[1 := name]> ∅
  | Some d => <[2 := d]> (<[1 := name]> ∅)
  end.

(** The resolution order: the variable when it is set, else the default when
    there is one, else the placeholder itself. *)
Definition resolve (environ : gmap string string) (name : string)
    (default : option string) : string :=
  match environ !! name with
  | Some v => v
  | None =>
      match default with
      | Some d => d
      | None => render name default
      end
  end.

(** A well-formed NAME, and a well-formed DEFAULT for a given set of DEFAULT
    characters. *)
Definition name_ok (name : string) : Prop :=
  name <> "" /\ all_chars name_char name = true.

Definition default_ok (p : ascii -> bool) (default : option string) : Prop :=
  match default with
  | None => True
  | Some d => all_chars p d = true
  end.

(** One left-to-right pass, as a relation between the input and the output:
    a placeholder at the current position is resolved and the pass goes on
    behind it; a character at which no placeholder starts is copied.
    [dchar] is the set of DEFAULT characters. *)
Inductive expands (dchar : ascii -> bool) (environ : gmap string string)
    : string -> string -> Prop :=
  | expands_nil : expands dchar environ "" ""
  | expands_placeholder name default rest out :
      name_ok name ->
      default_ok dchar default ->
      expands dchar environ rest out ->
      expands dchar environ (render name default +:+ rest)
        (resolve environ name default +:+ out)
  | expands_char c s out :
      (forall name default rest,
          name_ok name -> default_ok dchar default ->
          String c s <> render name default +:+ rest) ->
      expands dchar environ s out ->
      expands dchar environ (String c s) (String c out).

(** Strings made of plain text and placeholders. *)
Inductive segment : Type :=
  | Text (t : string)
  | Var (name : string) (default : option string).

Definition segment_text (g : segment) : string :=
  match g with
  | Text t => t
  | Var name default => render name default
  end.

Definition segment_value (environ : gmap string string) (g : segment) : string :=
  match g with
  | Text t => t
  | Var name default => resolve environ name default
  end.

Fixpoint concat (l : list string) : string :=
  match l with
  | [] => ""
  | x :: l' => x +:+ concat l'
  end.

(** The text that a list of segments spells, and the text it stands for. *)
Definition text (segs : list segment) : string :=
  concat (segment_text <$> segs).

Definition value (environ : gmap string string) (segs : list segment) : string :=
  concat (segment_value environ <$> segs).

(** A segment that one pass settles for good: plain text without a dollar
    sign, or a well-formed placeholder of a variable whose name can be
    encoded and that is set to a value without a dollar sign. *)
Definition settled (environ : gmap string string) (g : segment) : Prop :=
  match g with
  | Text t => Str.mem "$" t = false
  | Var name default =>
      name_ok name /\ default_ok default_char default /\
      ConfigInterpolation.encodable name = true /\
      exists v, environ !! name = Some v /\ Str.mem "$" v = false
  end.

(** A string made of settled segments. *)
Definition settled_string (environ : gmap string string) (s : string) : Prop :=
  exists segs, s = text segs /\ Forall (settled environ) segs.

End Placeholder.

(* ================================================================== *)
(** * JSON values, as [json.loads] returns them *)

Module Json.
Import Py.

#[warnings="-register-all"]
Inductive value : Type :=
  | JNull                                   (* None *)
  | JBool (b : bool)
  | JInt (z : Z)
  | JFloat (f : PrimFloat.float)
  | JStr (s : string)
  | JArr (elems : list value)
  | JObj (items : list (string * value)).   (* a dict, in insertion order *)

(** [bool(v)] *)
Definition truthy (v : value) : bool :=
  match v with
  | JNull => false
  | JBool b => b
  | JInt z => negb (Z.eqb z 0)
  | JFloat f => negb (PrimFloat.eqb f PrimFloat.zero)
  | JStr s => negb (String.eqb s "")
  | JArr l => match l with [] => false | _ => true end
  | JObj l => match l with [] => false | _ => true end
  end.

(** [v is None] *)
Definition is_None (v : value) : bool :=
  match v with JNull => true | _ => false end.

Fixpoint assoc {A : Type} (key : string) (l : list (string * A)) : option A :=
  match l with
  | [] => None
  | (k, a) :: l' => if String.eqb key k then Some a else assoc key l'
  end.

(** [key in v] for a string [key]: a key of a dict, an element of a list, a
    substring of a string; other values are not containers. *)
Definition contains (key : string) (v : value) : result bool :=
  match v with
  | JObj items => Ok (match assoc key items with Some _ => true | None => false end)
  | JArr l =>
      Ok (existsb (fun x => match x with
                            | JStr s => String.eqb key s
                            | _ => false
                            end) l)
  | JStr s => Ok (Str.contains key s)
  | _ => Raise TypeError
  end.

(** [v[key]] for a string [key]. *)
Definition getitem (v : value) (key : string) : result value :=
  match v with
  | JObj items =>
      match assoc key items with
      | Some x => Ok x
      | None => Raise (OtherException "KeyError")
      end
  | _ => Raise TypeError
  end.

End Json.

(* ================================================================== *)
(** * src/actions/gps/connector/fabric.py *)

Module Fabric.
Import Py Json.

(** The arguments of one [requests.post] call. *)
Record request : Type := Request {
  url : string;
  json : value;
  headers : list (string * string);
  timeout : Z
}.

(** What the connector uses of a [requests.Response]: the status code and
    what [.json()] does, which is to return the parsed body or to raise. *)
Record response : Type := Response {
  status_code : Z;
  body_json : result value
}.

(** The log records of the module, one constructor per format string; the
    values that a record prints are its arguments. *)
Inductive message : Type :=
  | MsgAction (action : string)         (* "GPSFabricConnector: {action}" *)
  | MsgSending                          (* "... Sending coordinates to Fabric
                                           network." *)
  | MsgLatitude (v : value)             (* "... Latitude: {latitude}" *)
  | MsgLongitude (v : value)            (* "... Longitude: {longitude}" *)
  | MsgYaw (v : value)                  (* "... Yaw: {yaw}" *)
  | MsgInvalidCoordinates (lat lon yaw : value)
                                        (* "... Invalid coordinates - ..." *)
  | MsgRpcError (payload : value)       (* "... JSON-RPC error - {...}" *)
  | MsgShared                           (* "... Coordinates shared
                                           successfully." *)
  | MsgNoValidResult                    (* "... Failed to share coordinates -
                                           no valid result in response." *)
  | MsgTimeout                          (* "... Request timeout when sending
                                           coordinates." *)
  | MsgHttpError (e : exn)              (* "... HTTP error - {e}" *)
  | MsgNetworkError (e : exn)           (* "... Network error - {e}" *)
  | MsgInvalidJson (e : exn)            (* "... Invalid JSON response - {e}" *)
  | MsgUnexpected (e : exn).            (* "... Unexpected error - {e}" *)

Inductive level : Type := INFO | ERROR.

(** What a call does to the world around it. *)
Inductive event : Type :=
  | EvLog (l : level) (m : message)     (* logging.info, logging.error *)
  | EvGet (name : string)               (* io_provider.get_dynamic_variable *)
  | EvPost (r : request).               (* requests.post *)

(** The collaborators of a call: the dynamic variables held by the
    [IOProvider] singleton, and the network, which answers a request with a
    response or with an exception. *)
Record world : Type := World {
  variables : gmap string value;
  network : request -> result response
}.

(** A computation: the events it causes, in order, and its result. *)
Definition io (A : Type) : Type := list event * result A.

#[global] Instance io_ret : MRet io := fun A a => ([], Ok a).
#[global] Instance io_bind : MBind io := fun A B f m =>
  match m with
  | (t, Ok a) => let '(t', r) := f a in ((t ++ t')%list, r)
  | (t, Raise e) => (t, Raise e)
  end.

(** An operation without events that may raise. *)
Definition lift {A : Type} (r : result A) : io A := ([], r).

(** [try: body except ...: handler] where every handler clause is folded
    into [handler]. *)
Definition try_except {A : Type} (body : io A) (handler : exn -> io A) : io A :=
  match body with
  | (t, Ok a) => (t, Ok a)
  | (t, Raise e) => let '(t', r) := handler e in ((t ++ t')%list, r)
  end.

Definition logging_info (m : message) : io unit := ([EvLog INFO m], Ok tt).
Definition logging_error (m : message) : io unit := ([EvLog ERROR m], Ok tt).

(** Modelled from the spec: [providers/io_provider.py] is not among the
    sources.  [get_dynamic_variable(name)] gives the value stored under
    [name], null when there is none. *)
Definition dynamic_variable (w : world) (name : string) : value :=
  default JNull (variables w !! name).

Definition get_dynamic_variable (w : world) (name : string) : io value :=
  ([EvGet name], Ok (dynamic_variable w name)).

(** [requests.post(url, json=..., headers=..., timeout=...)] *)
Definition requests_post (w : world) (r : request) : io response :=
  ([EvPost r], network w r).

(** [Response.raise_for_status()]: [HTTPError] for a client error (4xx) or a
    server error (5xx) status. *)
Definition raise_for_status (r : response) : io unit :=
  if ((400 <=? status_code r) && (status_code r <? 600))%Z
  then lift (Raise ReqHTTPError)
  else lift (Ok tt).

(** The connector object. *)
Record GPSFabricConnector : Type := Connector {
  fabric_endpoint : string
}.

(** The clauses of the [except] chain, tried in order. *)
Definition handler (e : exn) : io unit :=
  if is_Timeout e then logging_error MsgTimeout
  else if is_HTTPError e then logging_error (MsgHttpError e)
  else if is_RequestException e then logging_error (MsgNetworkError e)
  else if is_ValueError e then logging_error (MsgInvalidJson e)
  else logging_error (MsgUnexpected e).

(** The body of the JSON-RPC request. *)
Definition share_status_body (latitude longitude yaw : value) : value :=
  JObj [("method", JStr "omp2p_shareStatus");
        ("params", JArr [JObj [("latitude", latitude);
                               ("longitude", longitude);
                               ("yaw", yaw)]]);
        ("id", JInt 1);
        ("jsonrpc", JStr "2.0")].

(** The request that [send_coordinates] posts. *)
Definition share_status_request (self : GPSFabricConnector)
    (latitude longitude yaw : value) : request :=
  {| url := fabric_endpoint self;
     json := share_status_body latitude longitude yaw;
     headers := [("Content-Type", "application/json")];
     timeout := 10 |}.

(** The body of the [try] block of [send_coordinates]. *)
Definition share_status (self : GPSFabricConnector) (w : world)
    (latitude longitude yaw : value) : io unit :=
  share_status_response ←
    requests_post w (share_status_request self latitude longitude yaw);
  _ ← raise_for_status share_status_response;
  response ← lift (body_json share_status_response);
  has_error ← lift (contains "error" response);
  if has_error : bool then
    payload ← lift (getitem response "error");
    logging_error (MsgRpcError payload)
  else
    has_result ← lift (contains "result" response);
    result_ok ← (if has_result : bool
                 then lift (truthy <$> getitem response "result")
                 else mret false);
    if result_ok : bool then logging_info MsgShared
    else logging_error MsgNoValidResult.

Definition send_coordinates (self : GPSFabricConnector) (w : world) : io unit :=
  _ ← logging_info MsgSending;
  latitude ← get_dynamic_variable w "latitude";
  longitude ← get_dynamic_variable w "longitude";
  yaw ← get_dynamic_variable w "yaw_deg";
  _ ← logging_info (MsgLatitude latitude);
  _ ← logging_info (MsgLongitude longitude);
  _ ← logging_info (MsgYaw yaw);
  if is_None latitude || is_None longitude || is_None yaw then
    logging_error (MsgInvalidCoordinates latitude longitude yaw)
  else
    try_except (share_status self w latitude longitude yaw) handler.

(** The events of a call up to the validation: the first log record, the
    three reads and the three log records of what was read. *)
Definition fetch_trace (w : world) : list event :=
  [EvLog INFO MsgSending;
   EvGet "latitude"; EvGet "longitude"; EvGet "yaw_deg";
   EvLog INFO (MsgLatitude (dynamic_variable w "latitude"));
   EvLog INFO (MsgLongitude (dynamic_variable w "longitude"));
   EvLog INFO (MsgYaw (dynamic_variable w "yaw_deg"))].

(** One of the three values read is None. *)
Definition some_coordinate_is_None (w : world) : bool :=
  is_None (dynamic_variable w "latitude")
  || is_None (dynamic_variable w "longitude")
  || is_None (dynamic_variable w "yaw_deg").

(** The request that a call posts when none of the three values is None. *)
Definition request_of (self : GPSFabricConnector) (w : world) : request :=
  share_status_request self (dynamic_variable w "latitude")
    (dynamic_variable w "longitude") (dynamic_variable w "yaw_deg").

Section Connect.
(** [actions/gps/interface.py] is not among the sources: the enumeration
    [GPSAction], its member [SHARE_LOCATION] and the way an action prints
    are taken as parameters. *)
Context {GPSAction : Type} `{EqDecision GPSAction}.
Variable SHARE_LOCATION : GPSAction.
Variable format_action : GPSAction -> string.

Record GPSInput : Type := { action : GPSAction }.

Definition connect (self : GPSFabricConnector) (w : world)
    (output_interface : GPSInput) : io unit :=
  _ ← logging_info (MsgAction (format_action (action output_interface)));
  if decide (action output_interface = SHARE_LOCATION)
  then send_coordinates self w
  else mret tt.
End Connect.

(** ** The outcome of a publish attempt, read off the log

    The outcomes are those of the specification.  [send_coordinates] returns
    [None] on every path and tells them apart by the log record that it
    writes last. *)

Inductive outcome : Type :=
  | Success
  | RejectedInvalidInput
  | NetworkError
  | HttpError
  | RpcError
  | MalformedResponse
  | UnexpectedError.

(** The outcome that a log record reports, if it reports one. *)
Definition outcome_of (ev : event) : option outcome :=
  match ev with
  | EvLog _ (MsgInvalidCoordinates _ _ _) => Some RejectedInvalidInput
  | EvLog _ (MsgRpcError _) => Some RpcError
  | EvLog _ MsgShared => Some Success
  | EvLog _ MsgNoValidResult => Some MalformedResponse
  | EvLog _ MsgTimeout => Some NetworkError
  | EvLog _ (MsgHttpError _) => Some HttpError
  | EvLog _ (MsgNetworkError _) => Some NetworkError
  | EvLog _ (MsgInvalidJson _) => Some MalformedResponse
  | EvLog _ (MsgUnexpected _) => Some UnexpectedError
  | _ => None
  end.

(** The outcomes reported by a trace, in order. *)
Definition outcomes (t : list event) : list outcome := omap outcome_of t.

(** The requests sent and the variables fetched by a trace, in order. *)
Definition posts (t : list event) : list request :=
  omap (fun ev => match ev with EvPost r => Some r | _ => None end) t.

Definition fetches (t : list event) : list string :=
  omap (fun ev => match ev with EvGet n => Some n | _ => None end) t.

End Fabric.

(* ================================================================== *)
(** * More of the two modules, and the conversation exporter *)

(** ** The variables that a string refers to *)

Module Referenced.
Import Re ConfigInterpolation.

(** [re.finditer(r, s)]: the matches that [re.sub] replaces, found by the
    same scan. *)
Fixpoint finditer_from (r : regex) (skip : nat) (s : string)
    : list match_object :=
  match skip with
  | S n =>
      match s with
      | String _ s' => finditer_from r n s'
      | "" => []
      end
  | O =>
      match match_at r s with
      | Some m =>
          m :: match s with
               | String _ s' =>
                   match String.length (group0 m) with
                   | S n => finditer_from r n s'
                   | O => finditer_from r 0 s'
                   end
               | "" => []
               end
      | None =>
          match s with
          | String _ s' => finditer_from r 0 s'
          | "" => []
          end
      end
  end.

(** The names that [replacer] looks up while [s] is interpolated: group 1 of
    every match, left to right. *)
Definition names (s : string) : list string :=
  omap (fun m => group m 1) (finditer_from pattern 0 s).

(** Every lookup that the interpolation of [s] makes goes through: the
    names can be encoded. *)
Definition lookups_ok (s : string) : Prop :=
  Forall (fun name => encodable name = true) (names s).

(** A configuration with every string value blanked: what is left is its
    shape, the keys and the values that are not strings. *)
Fixpoint shape (c : config) : config :=
  match c with
  | CStr _ => CStr ""
  | CDict kvs =>
      CDict ((fix items (l : list (string * config)) : list (string * config) :=
                match l with
                | [] => []
                | (k, v) :: l' => (k, shape v) :: items l'
                end) kvs)
  | CList xs =>
      CList ((fix elems (l : list config) : list config :=
                match l with
                | [] => []
                | item :: l' => shape item :: elems l'
                end) xs)
  | COther v => COther v
  end.

End Referenced.

(** ** The configuration and the constructor of the connector *)

Module FabricInit.
Import Fabric.

(** [GPSFabricConfig]: the one field that the class adds to [ActionConfig]. *)
Record GPSFabricConfig : Type := Config {
  config_fabric_endpoint : string
}.

(** [GPSFabricConfig()]: the field takes its default. *)
Definition default_config : GPSFabricConfig :=
  {| config_fabric_endpoint := "http://localhost:8545" |}.

(** [GPSFabricConnector.__init__]: the endpoint is copied from the
    configuration; the [IOProvider] that it fetches is the one of the
    world. *)
Definition __init__ (config : GPSFabricConfig) : GPSFabricConnector :=
  {| fabric_endpoint := config_fabric_endpoint config |}.

End FabricInit.

(** ** src/utils/conversation_exporter.py *)

Module Exporter.
Import Json.

(** [providers/llm_history_manager.py] is not among the sources: of a
    [ChatMessage] the exporters read the attributes [role] and [content]. *)
Record ChatMessage : Type := Message {
  role : string;
  content : string
}.

(** The line feed, as a string. *)
Definition NL : string := String "010" "".

(** [sep.join(lines)] *)
Fixpoint join (sep : string) (lines : list string) : string :=
  match lines with
  | [] => ""
  | x :: rest =>
      match rest with
      | [] => x
      | _ :: _ => x +:+ sep +:+ join sep rest
      end
  end.

(** What is written to the file: the argument of [json.dump] with its
    [indent] and [ensure_ascii], or the argument of [f.write]. *)
Inductive document : Type :=
  | JsonDocument (data : value) (indent : nat) (ensure_ascii : bool)
  | TextDocument (text : string).

(** An exception of the [try] block: an [IOError] (which is [OSError]) or
    any other exception. *)
Inductive failure : Type :=
  | IOError (detail : string)
  | NotIOError (detail : string).

Inductive outcome : Type :=
  | Returned (path : string)
  | Raised (e : failure).

(** The log records of the module. *)
Inductive message : Type :=
  | MsgExported (count : nat) (output_file : string)
      (* "Successfully exported {len(messages)} messages to {output_file}" *)
  | MsgFailedJson (e : failure)      (* "Failed to write JSON file: {e}" *)
  | MsgFailedMarkdown (e : failure). (* "Failed to write Markdown file: {e}" *)

Inductive event : Type :=
  | EvWrite (output_file : string) (d : document)
      (* the [with open(output_file, "w", encoding="utf-8")] block *)
  | EvInfo (m : message)
  | EvError (m : message).

Section Exporting.
(** [datetime] is taken as it is: a type of instants with the two
    formatting methods that the exporters call. *)
Context {datetime : Type}.
Variable strftime : datetime -> string -> string.
Variable isoformat : datetime -> string.

(** [pathlib] is taken as it is: [Path p] is [str(Path(p))], the path as
    [pathlib] writes it (without doubled or trailing slashes and without
    [.] components, [.] for the empty string).  A [Path] object is stood
    for by that string: it is what is opened and what a log record
    prints. *)
Variable Path : string -> string.

(** The collaborators of a call: the clock ([now k] is what the call of
    [datetime.now()] number [k] of this invocation returns), the file
    system (whether opening and writing the file raises) and
    [Path.absolute]. *)
Record world : Type := World {
  now : nat -> datetime;
  write : string -> document -> option failure;
  absolute : string -> outcome
}.

(** The list comprehension over [enumerate(messages)]. *)
Definition message_entries (messages : list ChatMessage) : list value :=
  imap (fun idx msg =>
          JObj [("role", JStr (role msg));
                ("content", JStr (content msg));
                ("index", JInt (Z.of_nat idx))]) messages.

(** [export_data] of [export_to_json]. *)
Definition export_data (agent_name : string) (export_time : datetime)
    (messages : list ChatMessage) : value :=
  JObj [("metadata",
         JObj [("agent_name", JStr agent_name);
               ("export_timestamp", JStr (isoformat export_time));
               ("message_count", JInt (Z.of_nat (List.length messages)))]);
        ("messages", JArr (message_entries messages))].

Definition export_to_json (w : world) (messages : list ChatMessage)
    (agent_name : option string) (output_path : option string)
    : list event * outcome :=
  let agent_name := default "IRIS" agent_name in
  let '(output_path, reads) :=
    match output_path with
    | None =>
        ("conversation_history_"
           +:+ strftime (now w 0) "%Y%m%d_%H%M%S" +:+ ".json", 1)
    | Some p => (p, 0)
    end in
  let data := export_data agent_name (now w reads) messages in
  let output_file := Path output_path in
  let d := JsonDocument data 2 false in
  let body :=
    match write w output_file d with
    | Some e => ([EvWrite output_file d], Raised e)
    | None =>
        ([EvWrite output_file d;
          EvInfo (MsgExported (List.length messages) output_file)],
         absolute w output_file)
    end in
  match body with
  | (t, Raised (IOError detail)) =>
      ((t ++ [EvError (MsgFailedJson (IOError detail))])%list,
       Raised (IOError detail))
  | _ => body
  end.

(** The four lines that the loop of [export_to_markdown] appends for one
    message. *)
Definition message_lines (idx : nat) (msg : ChatMessage) : list string :=
  ["## Message " +:+ pretty idx +:+ " (" +:+ role msg +:+ ")";
   "";
   content msg;
   ""].

(** [lines] of [export_to_markdown], when the loop is done. *)
Definition markdown_lines (agent_name : string) (export_time : datetime)
    (messages : list ChatMessage) : list string :=
  (["# Conversation History";
    "";
    "**Agent**: " +:+ agent_name;
    "**Export Time**: " +:+ strftime export_time "%Y-%m-%d %H:%M:%S";
    "**Messages**: " +:+ pretty (List.length messages);
    "";
    "---";
    ""] ++
   match messages with
   | [] => ["*No messages in this conversation.*"]
   | _ :: _ =>
       List.concat (imap (fun i msg => message_lines (S i) msg) messages)
   end)%list.

Definition markdown_content (agent_name : string) (export_time : datetime)
    (messages : list ChatMessage) : string :=
  join NL (markdown_lines agent_name export_time messages).

Definition export_to_markdown (w : world) (messages : list ChatMessage)
    (agent_name : option string) (output_path : option string)
    : list event * outcome :=
  let agent_name := default "IRIS" agent_name in
  let '(output_path, reads) :=
    match output_path with
    | None =>
        ("conversation_history_"
           +:+ strftime (now w 0) "%Y%m%d_%H%M%S" +:+ ".md", 1)
    | Some p => (p, 0)
    end in
  let text := markdown_content agent_name (now w reads) messages in
  let output_file := Path output_path in
  let d := TextDocument text in
  let body :=
    match write w output_file d with
    | Some e => ([EvWrite output_file d], Raised e)
    | None =>
        ([EvWrite output_file d;
          EvInfo (MsgExported (List.length messages) output_file)],
         absolute w output_file)
    end in
  match body with
  | (t, Raised (IOError detail)) =>
      ((t ++ [EvError (MsgFailedMarkdown (IOError detail))])%list,
       Raised (IOError detail))
  | _ => body
  end.
(** The file that an exporter writes: the path given, or else the name made
    of the first reading of the clock. *)
Definition target (w : world) (extension : string)
    (output_path : option string) : string :=
  match output_path with
  | Some p => p
  | None =>
      "conversation_history_"
        +:+ strftime (now w 0) "%Y%m%d_%H%M%S" +:+ extension
  end.

End Exporting.

(** The documents written and the error records of a trace. *)
Definition writes (t : list event) : list (string * document) :=
  omap (fun ev => match ev with
                  | EvWrite f d => Some (f, d)
                  | _ => None
                  end) t.

Definition errors (t : list event) : list message :=
  omap (fun ev => match ev with EvError m => Some m | _ => None end) t.

Definition infos (t : list event) : list message :=
  omap (fun ev => match ev with EvInfo m => Some m | _ => None end) t.

End Exporter.

(* ================================================================== *)
(** * Facts about strings *)

Module StrFacts.
Import Str.

Lemma app_nil_r (s : string) : s +:+ "" = s.
Proof. induction s as [|c s IH]; simpl; [done | by rewrite IH]. Qed.

Lemma app_assoc (a b c : string) : (a +:+ b) +:+ c = a +:+ (b +:+ c).
Proof. induction a as [|x a IH]; simpl; [done | by rewrite IH]. Qed.

Lemma length_app (a b : string) :
  String.length (a +:+ b) = String.length a + String.length b.
Proof. induction a as [|x a IH]; simpl; [done | by rewrite IH]. Qed.

Lemma take_app (a b : string) : take (String.length a) (a +:+ b) = a.
Proof. induction a as [|x a IH]; simpl; [by destruct b | by rewrite IH]. Qed.

Lemma consumed_app (a b : string) : consumed (a +:+ b) b = a.
Proof.
  unfold consumed. rewrite length_app.
  replace (String.length a + String.length b - String.length b)
    with (String.length a) by lia.
  apply take_app.
Qed.

Lemma consumed_cons (c : ascii) (a b : string) :
  consumed (String c (a +:+ b)) b = String c a.
Proof. apply (consumed_app (String c a) b). Qed.

Lemma mem_app (c : ascii) (a b : string) :
  mem c (a +:+ b) = mem c a || mem c b.
Proof.
  induction a as [|x a IH]; simpl; [done|].
  rewrite IH. by destruct (Ascii.eqb c x).
Qed.

End StrFacts.

(* ================================================================== *)
(** * The pattern and the placeholder reader agree *)

Module PatternFacts.
Import Py Re ConfigInterpolation Placeholder StrFacts.

(** Case analysis on a character test. *)
Ltac case_char c d :=
  let E := fresh "E" in
  destruct (Ascii.eqb_spec c d) as [E|E]; [try subst c | idtac].

(** Appends associated to the right, with leading characters pulled out. *)
Ltac norm_app := repeat (progress (simpl; rewrite ?app_assoc)).

Lemma span_app (p : ascii -> bool) (s : string) :
  s = (span p s).1 +:+ (span p s).2.
Proof.
  induction s as [|c s IH]; simpl; [done|].
  destruct (p c); simpl; [|done].
  destruct (span p s) as [a b]. simpl in *. by rewrite <- IH.
Qed.

Lemma span_all (p : ascii -> bool) (s : string) :
  all_chars p (span p s).1 = true.
Proof.
  induction s as [|c s IH]; simpl; [done|].
  destruct (p c) eqn:E; simpl; [|done].
  destruct (span p s) as [a b]. simpl in *. by rewrite E, IH.
Qed.

(** The longest prefix is the only one at whose end the characters stop. *)
Lemma span_unique (p : ascii -> bool) (a b : string) :
  all_chars p a = true ->
  match b with String c _ => p c = false | "" => True end ->
  span p (a +:+ b) = (a, b).
Proof.
  intros Ha Hb. induction a as [|x a IH]; simpl in *.
  - destruct b as [|c b]; simpl; [done | by rewrite Hb].
  - apply andb_true_iff in Ha as [Hx Ha]. rewrite Hx, (IH Ha). done.
Qed.

Lemma scan_default_sound (s d r : string) :
  scan_default s = Some (d, r) ->
  s = d +:+ String "}" r /\ all_chars default_char d = true.
Proof.
  revert d r. induction s as [|c s IH]; intros d r; simpl; [done|].
  case_char c "}"%char.
  - intros [= <- <-]. done.
  - case_char c LF; [done|].
    destruct (scan_default s) as [[d' r']|] eqn:Hs; simpl; [|done].
    intros [= <- <-]. destruct (IH d' r' eq_refl) as [-> Hd].
    split; [done|]. simpl. unfold default_char at 1.
    apply Ascii.eqb_neq in E, E0. by rewrite E, E0, Hd.
Qed.

Lemma scan_default_complete (d r : string) :
  all_chars default_char d = true ->
  scan_default (d +:+ String "}" r) = Some (d, r).
Proof.
  induction d as [|c d IH]; simpl; [done|].
  unfold default_char at 1. intros H.
  apply andb_true_iff in H as [H Hd]. apply andb_true_iff in H as [H1 H2].
  apply negb_true_iff in H1, H2. rewrite H1, H2, (IH Hd). done.
Qed.

(** A scan that meets a line feed before any closing brace finds nothing. *)
Lemma scan_default_line_feed (a b : string) :
  Str.mem "}" a = false -> scan_default (a +:+ String LF b) = None.
Proof.
  induction a as [|c a IH]; simpl; [done|].
  rewrite Ascii.eqb_sym. case_char c "}"%char; [done|]. simpl.
  intros H. rewrite (IH H). by destruct (Ascii.eqb c LF).
Qed.

(** A greedy run stops where its characters stop, when the rest of the
    pattern cannot start with one of them. *)
Lemma greedy_span {R : Type} (k : cclass) (s : string) (g : captures)
    (kont : string -> captures -> option R) :
  (forall c s', accepts k c = true -> kont (String c s') g = None) ->
  greedy k s g kont = kont (span (accepts k) s).2 g.
Proof.
  intros Hk. induction s as [|c s IH]; simpl; [done|].
  destruct (accepts k c) eqn:E; simpl; [|done].
  rewrite IH. destruct (span (accepts k) s) as [a b] eqn:Hspan. simpl.
  destruct (kont b g) eqn:Hb; [done|].
  by apply Hk.
Qed.

(** A lazy run of [.] in front of a closing brace stops at the first closing
    brace, and fails when a line feed comes first. *)
Lemma lazy_scan {R : Type} (s : string) (g : captures)
    (kont : string -> captures -> option R) (F : string -> string -> option R) :
  (forall s', kont s' g =
     match s' with
     | String c s'' => if Ascii.eqb "}" c then F s' s'' else None
     | "" => None
     end) ->
  (forall s' s'', is_Some (F s' s'')) ->
  lazy Dot s g kont =
    match scan_default s with
    | Some (d, r) => F (String "}" r) r
    | None => None
    end.
Proof.
  intros Hk HF. induction s as [|c s IH]; simpl.
  - by rewrite Hk.
  - rewrite Hk, (Ascii.eqb_sym "}" c). case_char c "}"%char.
    + by destruct (HF (String "}" s) s) as [x ->].
    + fold LF. case_char c LF; simpl; [done|].
      rewrite IH. by destruct (scan_default s) as [[d r]|].
Qed.

Lemma accepts_name_char (c : ascii) :
  accepts (NoneOf ["}"; ":"]%char) c = name_char c.
Proof.
  unfold name_char. simpl.
  by destruct (Ascii.eqb c "}"), (Ascii.eqb c ":").
Qed.

Lemma name_char_inv (c : ascii) :
  name_char c = true -> Ascii.eqb "}" c = false /\ Ascii.eqb ":" c = false.
Proof.
  unfold name_char. rewrite (Ascii.eqb_sym "}"), (Ascii.eqb_sym ":").
  by destruct (Ascii.eqb c "}"), (Ascii.eqb c ":").
Qed.

Lemma span_ext (p q : ascii -> bool) (s : string) :
  (forall c, p c = q c) -> span p s = span q s.
Proof.
  intros H. induction s as [|c s IH]; simpl; [done|]. by rewrite H, IH.
Qed.

(** The backtracking matcher on the pattern finds exactly the placeholder
    that [parse] reads, with NAME as group 1 and DEFAULT as group 2. *)
Lemma match_at_parse (s : string) :
  match_at pattern s =
    (fun '(name, default, rest) =>
       MatchObject (Str.consumed s rest) (groups_of name default)) <$> parse s.
Proof.
  unfold match_at, pattern, parse.
  destruct s as [|c0 [|c1 s1]]; simpl; [done| |].
  { by destruct (Ascii.eqb "$" c0). }
  rewrite (Ascii.eqb_sym c0), (Ascii.eqb_sym c1).
  destruct (Ascii.eqb "$" c0) eqn:E0; simpl; [|done].
  destruct (Ascii.eqb "{" c1) eqn:E1; simpl; [|done].
  destruct s1 as [|c s']; [done|].
  change (negb ((c =? "}")%char || ((c =? ":")%char || false)))
    with (accepts (NoneOf ["}"; ":"]%char) c).
  rewrite accepts_name_char. cbn [span].
  destruct (name_char c) eqn:Ec; [|done].
  rewrite greedy_span.
  2:{ intros x t Hx. rewrite accepts_name_char in Hx.
      apply name_char_inv in Hx as [-> ->]. done. }
  rewrite (span_ext _ name_char s' accepts_name_char).
  pose proof (span_app name_char s') as Happ.
  destruct (span name_char s') as [a b]. simpl in Happ. subst s'.
  cbn [snd]. rewrite consumed_cons.
  destruct b as [|c2 s3]; [done|].
  rewrite (Ascii.eqb_sym c2 "}"), (Ascii.eqb_sym c2 ":").
  destruct (Ascii.eqb ":" c2) eqn:E2.
  - assert (Ascii.eqb "}" c2 = false) as ->.
    { apply Ascii.eqb_eq in E2 as <-. done. }
    destruct s3 as [|c3 s4]; [done|].
    rewrite (Ascii.eqb_sym c3 "-").
    destruct (Ascii.eqb "-" c3) eqn:E3; [|done]. cbn [andb].
    erewrite (lazy_scan s4 _ _ (fun t t' => Some _));
      [| intros t; reflexivity | by eauto].
    destruct (scan_default s4) as [[d r]|] eqn:Hs; [|done].
    apply scan_default_sound in Hs as [-> _].
    rewrite consumed_app. done.
  - destruct (Ascii.eqb "}" c2) eqn:E4; [done|].
    destruct s3; done.
Qed.

Lemma parse_sound (s name rest : string) (default : option string) :
  parse s = Some (name, default, rest) ->
  s = render name default +:+ rest /\
  name_ok name /\ default_ok default_char default.
Proof.
  unfold parse. destruct s as [|c0 [|c1 s1]]; [done..|].
  case_char c0 "$"%char; [|done]. case_char c1 "{"%char; [|done].
  cbn [andb].
  pose proof (span_app name_char s1) as Happ.
  pose proof (span_all name_char s1) as Hall.
  destruct (span name_char s1) as [a b]. simpl in Happ, Hall.
  destruct a as [|x a]; [done|]. destruct b as [|c2 s3]; [done|].
  case_char c2 "}"%char.
  - intros [= <- <- <-]. subst s1.
    split; [|done]. simpl. by rewrite app_assoc.
  - destruct s3 as [|c3 s4]; [done|].
    case_char c2 ":"%char; [|done]. case_char c3 "-"%char; [|done].
    cbn [andb]. destruct (scan_default s4) as [[d r]|] eqn:Hs; [|done].
    simpl. intros [= ? ? ?]. subst name default rest.
    apply scan_default_sound in Hs as [-> Hd]. subst s1.
    split; [|done]. by norm_app.
Qed.

Lemma parse_complete (name rest : string) (default : option string) :
  name_ok name -> default_ok default_char default ->
  parse (render name default +:+ rest) = Some (name, default, rest).
Proof.
  intros [Hne Hname] Hd. unfold parse, render.
  destruct default as [d|]; norm_app.
  - rewrite (span_unique name_char name); [|done..].
    destruct name as [|x name]; [done|]. simpl.
    simpl in Hd. by rewrite (scan_default_complete d rest Hd).
  - rewrite (span_unique name_char name); [|done..].
    by destruct name as [|x name].
Qed.

(** A line feed in front of the closing brace: no placeholder. *)
Lemma parse_line_feed_default (name a rest : string) :
  name_ok name -> Str.mem "}" a = false ->
  parse ("${" +:+ name +:+ ":-" +:+ a +:+ String LF rest) = None.
Proof.
  intros [Hne Hname] Ha. unfold parse. norm_app.
  rewrite (span_unique name_char name); [|done..].
  destruct name as [|x name]; [done|]. simpl.
  by rewrite (scan_default_line_feed a rest Ha).
Qed.

Lemma lookup_groups_1 (name : string) (default : option string) :
  groups_of name default !! 1 = Some name.
Proof.
  destruct default; simpl.
  - rewrite lookup_insert_ne by done. apply lookup_insert_eq.
  - apply lookup_insert_eq.
Qed.

Lemma lookup_groups_2 (name : string) (default : option string) :
  groups_of name default !! 2 = default.
Proof.
  destruct default; simpl.
  - apply lookup_insert_eq.
  - rewrite lookup_insert_ne by done. apply lookup_empty.
Qed.

(** On a match of the pattern [replacer] returns the placeholder resolved
    when NAME can be encoded, and raises otherwise. *)
Lemma replacer_resolve (environ : gmap string string) (name : string)
    (default : option string) :
  replacer environ (MatchObject (render name default) (groups_of name default))
  = if encodable name then Ok (resolve environ name default)
    else Raise ValueError.
Proof.
  unfold replacer, group, resolve. cbn [groups group0].
  rewrite lookup_groups_1, lookup_groups_2. simpl.
  destruct (encodable name); [|done]. simpl.
  destruct (environ !! name); [done|]. by destruct default.
Qed.

(** Passing over the characters of a match. *)
Lemma sub_from_skip (r : regex) (repl : match_object -> result string)
    (a b : string) :
  sub_from r repl (String.length a) (a +:+ b) = sub_from r repl 0 b.
Proof. induction a as [|x a IH]; simpl; [by destruct b | done]. Qed.

(** One step of the pass: a placeholder at the head is looked up and
    resolved, and the pass goes on behind it; otherwise the head character
    is copied. *)
Lemma interpolate_step (environ : gmap string string) (s : string) :
  _interpolate_string environ s =
    match parse s with
    | Some (name, default, rest) =>
        if encodable name then
          (fun out => resolve environ name default +:+ out) <$>
            _interpolate_string environ rest
        else Raise ValueError
    | None =>
        match s with
        | String c s' => String c <$> _interpolate_string environ s'
        | "" => Ok ""
        end
    end.
Proof.
  unfold _interpolate_string, re_sub.
  destruct s as [|c s']; [done|].
  cbn [sub_from]. rewrite match_at_parse.
  destruct (parse (String c s')) as [[[name default] rest]|] eqn:Hp;
    cbn [fmap option_fmap option_map]; [|done].
  apply parse_sound in Hp as (Hs & _ & _).
  rewrite Hs, consumed_app, replacer_resolve. cbn [group0].
  destruct (encodable name); [|done]. cbn [mbind result_bind].
  assert (exists x, render name default = String c x /\ s' = x +:+ rest)
    as (x & Hx & ->).
  { destruct default; simpl in Hs |- *; injection Hs as -> ->; eauto. }
  rewrite Hx. cbn [String.length]. rewrite sub_from_skip.
  by destruct (sub_from pattern (replacer environ) 0 rest).
Qed.

Lemma render_length (name : string) (default : option string) :
  0 < String.length (render name default).
Proof. destruct default; simpl; lia. Qed.

Import Referenced.

Lemma finditer_skip (r : regex) (a b : string) :
  finditer_from r (String.length a) (a +:+ b) = finditer_from r 0 b.
Proof. induction a as [|x a IH]; simpl; [by destruct b | done]. Qed.

(** One step of the scan for names, as [interpolate_step]. *)
Lemma names_step (s : string) :
  names s =
    match parse s with
    | Some (name, _, rest) => name :: names rest
    | None =>
        match s with
        | String _ s' => names s'
        | "" => []
        end
    end.
Proof.
  unfold names. destruct s as [|c s']; [done|].
  cbn [finditer_from]. rewrite match_at_parse.
  destruct (parse (String c s')) as [[[name default] rest]|] eqn:Hp;
    cbn [fmap option_fmap option_map]; [|done].
  apply parse_sound in Hp as (Hs & _ & _).
  rewrite Hs, consumed_app. cbn [group0 omap list_omap].
  unfold group at 1. cbn [groups]. rewrite lookup_groups_1.
  assert (exists x, render name default = String c x /\ s' = x +:+ rest)
    as (x & Hx & ->).
  { destruct default; simpl in Hs |- *; injection Hs as -> ->; eauto. }
  rewrite Hx. cbn [String.length]. by rewrite finditer_skip.
Qed.

(** The pass returns when every name that it looks up can be encoded. *)
Lemma interpolate_string_returns (environ : gmap string string) (s : string) :
  lookups_ok s -> returns (_interpolate_string environ s).
Proof.
  remember (String.length s) as n eqn:Hn.
  revert s Hn. induction (lt_wf n) as [n _ IH]. intros s -> Hok.
  unfold lookups_ok in Hok. rewrite names_step in Hok.
  rewrite interpolate_step.
  destruct (parse s) as [[[name default] rest]|] eqn:Hp.
  - apply parse_sound in Hp as (-> & _ & _).
    apply Forall_cons in Hok as [-> Hok].
    destruct (IH (String.length rest)) with (s := rest) as [out ->];
      [|done|done|].
    + rewrite length_app. pose proof (render_length name default). lia.
    + by eexists.
  - destruct s as [|c s']; [by eexists|].
    destruct (IH (String.length s')) with (s := s') as [out ->];
      [simpl; lia | done | done | by eexists].
Qed.

(** The pass raises [UnicodeEncodeError] when a name that it looks up
    cannot be encoded. *)
Lemma interpolate_string_raises (environ : gmap string string) (s : string) :
  ~ lookups_ok s -> _interpolate_string environ s = Raise ValueError.
Proof.
  remember (String.length s) as n eqn:Hn.
  revert s Hn. induction (lt_wf n) as [n _ IH]. intros s -> Hbad.
  unfold lookups_ok in Hbad. rewrite names_step in Hbad.
  rewrite interpolate_step.
  destruct (parse s) as [[[name default] rest]|] eqn:Hp.
  - apply parse_sound in Hp as (-> & _ & _).
    destruct (encodable name) eqn:He; [|done].
    rewrite (IH (String.length rest)) with (s := rest); [done| |done|].
    + rewrite length_app. pose proof (render_length name default). lia.
    + intros Hok. apply Hbad. by constructor.
  - destruct s as [|c s']; [by destruct Hbad|].
    by rewrite (IH (String.length s')) with (s := s'); [|simpl; lia|..].
Qed.

Lemma lookups_ok_dec (s : string) : lookups_ok s \/ ~ lookups_ok s.
Proof.
  unfold lookups_ok. induction (names s) as [|name l [IH|IH]].
  - left. constructor.
  - destruct (encodable name) eqn:He.
    + left. by constructor.
    + right. intros H. apply Forall_cons in H as [H _]. congruence.
  - right. intros H. apply Forall_cons in H as [_ H]. done.
Qed.

Lemma interpolate_string_returns_iff (environ : gmap string string)
    (s : string) :
  returns (_interpolate_string environ s) <-> lookups_ok s.
Proof.
  split; [|apply interpolate_string_returns].
  intros [out Ho]. destruct (lookups_ok_dec s) as [H|H]; [done|].
  by rewrite (interpolate_string_raises environ s H) in Ho.
Qed.

End PatternFacts.

(* ================================================================== *)
(** * The interpolation of one string *)

Module InterpolateString.
Import Py Re ConfigInterpolation Placeholder Referenced StrFacts PatternFacts.

Section Pass.
Variable environ : gmap string string.

Lemma interpolate_nil : _interpolate_string environ "" = Ok "".
Proof. reflexivity. Qed.

Lemma interpolate_placeholder (name rest out : string)
    (default : option string) :
  name_ok name -> default_ok default_char default ->
  encodable name = true ->
  _interpolate_string environ rest = Ok out ->
  _interpolate_string environ (render name default +:+ rest)
  = Ok (resolve environ name default +:+ out).
Proof.
  intros Hn Hd He Hrest.
  by rewrite interpolate_step, (parse_complete _ _ _ Hn Hd), He, Hrest.
Qed.

(** The names of a placeholder and what follows it. *)
Lemma names_placeholder (name rest : string) (default : option string) :
  name_ok name -> default_ok default_char default ->
  names (render name default +:+ rest) = name :: names rest.
Proof.
  intros Hn Hd. by rewrite names_step, (parse_complete _ _ _ Hn Hd).
Qed.

Lemma interpolate_char (c : ascii) (s out : string) :
  parse (String c s) = None ->
  _interpolate_string environ s = Ok out ->
  _interpolate_string environ (String c s) = Ok (String c out).
Proof. intros Hp Hs. by rewrite interpolate_step, Hp, Hs. Qed.

(** No placeholder starts at a character that is not the dollar sign. *)
Lemma parse_not_dollar (c : ascii) (s : string) :
  c <> "$"%char -> parse (String c s) = None.
Proof.
  intros Hc. unfold parse. destruct s as [|c1 s1]; [done|].
  apply Ascii.eqb_neq in Hc. by rewrite Hc.
Qed.

Lemma mem_render (name : string) (default : option string) :
  Str.mem "}" (render name default) = true.
Proof.
  destruct default; unfold render; rewrite !mem_app; cbn [Str.mem];
    rewrite Ascii.eqb_refl; simpl; by rewrite ?orb_true_r.
Qed.

(** No placeholder starts where no closing brace follows. *)
Lemma parse_no_brace (s : string) :
  Str.mem "}" s = false -> parse s = None.
Proof.
  intros Hs. destruct (parse s) as [[[name default] rest]|] eqn:Hp; [|done].
  apply parse_sound in Hp as (-> & _ & _).
  by rewrite mem_app, mem_render in Hs.
Qed.

Lemma expands_sound (s out : string) :
  expands default_char environ s out ->
  lookups_ok s ->
  _interpolate_string environ s = Ok out.
Proof.
  unfold lookups_ok.
  induction 1 as [|name default rest out Hn Hd _ IH|c s out Hno _ IH];
    intros Hok.
  - apply interpolate_nil.
  - rewrite (names_placeholder name rest default Hn Hd) in Hok.
    apply Forall_cons in Hok as [He Hok].
    by apply interpolate_placeholder; [..|apply IH].
  - assert (parse (String c s) = None) as Hp.
    { destruct (parse (String c s)) as [[[name default] rest]|] eqn:Hp;
        [|done].
      apply parse_sound in Hp as (Hs & Hn & Hd).
      by destruct (Hno name default rest). }
    rewrite names_step, Hp in Hok.
    by apply interpolate_char; [|apply IH].
Qed.

Lemma expands_complete (s : string) :
  lookups_ok s ->
  exists out,
    _interpolate_string environ s = Ok out /\
    expands default_char environ s out.
Proof.
  unfold lookups_ok.
  remember (String.length s) as n eqn:Hlen.
  revert s Hlen. induction (lt_wf n) as [n _ IH]. intros s -> Hok.
  rewrite names_step in Hok.
  destruct (parse s) as [[[name default] rest]|] eqn:Hp.
  - apply parse_sound in Hp as (-> & Hn & Hd).
    apply Forall_cons in Hok as [Henc Hok].
    destruct (IH (String.length rest)) with (s := rest) as (out & Ho & He);
      [|done|done|].
    + rewrite length_app. pose proof (render_length name default). lia.
    + exists (resolve environ name default +:+ out). split.
      * by apply interpolate_placeholder.
      * by constructor.
  - destruct s as [|c s']; [exists ""; split; [done | constructor] |].
    destruct (IH (String.length s')) with (s := s') as (out & Ho & He);
      [simpl; lia | done | done |].
    exists (String c out). split; [by apply interpolate_char|].
    constructor; [|done].
    intros name default rest Hn Hd Heq.
    by rewrite Heq, (parse_complete _ _ _ Hn Hd) in Hp.
Qed.

(** A string that is one placeholder. *)
Lemma interpolate_one (name : string) (default : option string) :
  name_ok name -> default_ok default_char default ->
  encodable name = true ->
  _interpolate_string environ (render name default)
  = Ok (resolve environ name default).
Proof.
  intros Hn Hd He.
  rewrite <- (app_nil_r (render name default)).
  rewrite (interpolate_placeholder name "" "" default Hn Hd He interpolate_nil).
  by rewrite app_nil_r.
Qed.

(** Two strings that append to the same text: one is a prefix of the
    other. *)
Lemma app_eq_app (a b c d : string) :
  a +:+ b = c +:+ d ->
  (exists e, a = c +:+ e /\ d = e +:+ b) \/
  (exists x e, c = a +:+ String x e /\ b = String x e +:+ d).
Proof.
  revert c. induction a as [|x a IH]; intros c H; simpl in H.
  - destruct c as [|y c].
    + left. exists "". by simpl in *.
    + right. exists y, c. by simpl in *.
  - destruct c as [|y c]; simpl in H.
    + left. exists (String x a). by subst d.
    + injection H as -> H. destruct (IH c H) as [(e & -> & ->)|(z & e & -> & ->)].
      * left. by exists e.
      * right. by exists z, e.
Qed.

(** Text without a closing brace behind the input changes no placeholder
    of the input. *)
Lemma parse_app_no_brace (p t : string) :
  Str.mem "}" t = false ->
  parse (p +:+ t) = (fun '(n, d, r) => (n, d, r +:+ t)) <$> parse p.
Proof.
  intros Ht. destruct (parse p) as [[[n d] r]|] eqn:Hp; simpl.
  - apply parse_sound in Hp as (-> & Hn & Hd).
    rewrite app_assoc. by apply parse_complete.
  - destruct (parse (p +:+ t)) as [[[n d] r]|] eqn:Hpt; [|done].
    apply parse_sound in Hpt as (Heq & Hn & Hd).
    apply app_eq_app in Heq as [(e & -> & _)|(x & e & Hr & ->)].
    + by rewrite (parse_complete _ _ _ Hn Hd) in Hp.
    + assert (Str.mem "}" (String x e) = true) as Hmem.
      { assert (exists q, render n d = q +:+ "}") as [q Hq].
        { destruct d as [d|]; unfold render.
          - exists ("${" +:+ n +:+ ":-" +:+ d). by norm_app.
          - exists ("${" +:+ n). by norm_app. }
        rewrite Hq in Hr. clear Hq.
        apply app_eq_app in Hr as [(e' & -> & He)|(y & e' & _ & He)].
        - rewrite He, mem_app. cbn [Str.mem].
          by rewrite Ascii.eqb_refl, orb_true_r.
        - simpl in He. injection He as _ He. by destruct e'. }
      rewrite mem_app, Hmem in Ht. done.
Qed.

(** A string without a closing brace is left as it is. *)
Lemma interpolate_no_brace (s : string) :
  Str.mem "}" s = false -> _interpolate_string environ s = Ok s.
Proof.
  induction s as [|c s IH]; intros Hs; [done|].
  rewrite interpolate_step, (parse_no_brace _ Hs).
  simpl in Hs. apply orb_false_iff in Hs as [_ Hs].
  by rewrite (IH Hs).
Qed.

(** The text behind the last closing brace is left as it is. *)
Lemma interpolate_app_no_brace (s t : string) :
  Str.mem "}" t = false ->
  _interpolate_string environ (s +:+ t)
  = (fun out => out +:+ t) <$> _interpolate_string environ s.
Proof.
  intros Ht.
  remember (String.length s) as n eqn:Hlen.
  revert s Hlen. induction (lt_wf n) as [n _ IH]. intros s ->.
  rewrite (interpolate_step environ (s +:+ t)), (interpolate_step environ s).
  rewrite (parse_app_no_brace s t Ht).
  destruct (parse s) as [[[name default] rest]|] eqn:Hp; simpl.
  - apply parse_sound in Hp as (-> & _ & _).
    destruct (encodable name); [|done].
    rewrite (IH (String.length rest)) with (s := rest); [| |done].
    + destruct (_interpolate_string environ rest); simpl; [|done].
      by rewrite app_assoc.
    + rewrite length_app. pose proof (render_length name default). lia.
  - destruct s as [|c s']; simpl.
    + destruct t as [|c t]; [done|].
      simpl in Ht. apply orb_false_iff in Ht as [_ Ht].
      by rewrite (interpolate_no_brace t Ht).
    + rewrite (IH (String.length s')) with (s := s'); [|simpl; lia|done].
      by destruct (_interpolate_string environ s').
Qed.
End Pass.

(** ** The resolution order *)

(** C1, as the code has it: for every environment and every input string
    whose NAMEs can all be encoded for the lookup, the pass returns the
    string in which, scanning from the left, each placeholder [${NAME}] or
    [${NAME:-DEFAULT}] is replaced by the value of the variable NAME when it
    is set (an empty value included), else by DEFAULT when there is one (an
    empty one included), else by the placeholder itself, and every other
    character is copied; NAME is a non-empty run of characters other than
    the closing brace and the colon, DEFAULT a run of characters other than
    the closing brace and the line feed.  When a NAME cannot be encoded (it
    holds a lone surrogate) the lookup of line 85 raises
    [UnicodeEncodeError] and so does the pass, default or not.  In
    particular [${X:-}] with X unset gives the empty string, and a
    placeholder of a variable set to the empty string gives the empty
    string; and the pattern does not match where a line feed stands between
    [:-] and the next closing brace. *)
Theorem interpolate_string_resolution_order (environ : gmap string string) :
  (forall s, lookups_ok s ->
      exists out,
        _interpolate_string environ s = Ok out /\
        expands default_char environ s out /\
        forall out', expands default_char environ s out' -> out' = out) /\
  (forall s, ~ lookups_ok s ->
      _interpolate_string environ s = Raise ValueError) /\
  (forall name, name_ok name -> encodable name = true ->
      environ !! name = None ->
      _interpolate_string environ ("${" +:+ name +:+ ":-}") = Ok "") /\
  (forall name default, name_ok name -> default_ok default_char default ->
      encodable name = true ->
      environ !! name = Some "" ->
      _interpolate_string environ (render name default) = Ok "") /\
  (forall name a rest, name_ok name -> Str.mem "}" a = false ->
      match_at pattern ("${" +:+ name +:+ ":-" +:+ a +:+ String LF rest)
      = None).
Proof.
  split; [|split; [|split; [|split]]].
  - intros s Hok.
    destruct (expands_complete environ s Hok) as (out & Ho & He).
    exists out. split; [done|]. split; [done|].
    intros out' He'. apply (expands_sound environ) in He'; [|done].
    congruence.
  - intros s Hbad. by apply interpolate_string_raises.
  - intros name Hn He Henv.
    change ("${" +:+ name +:+ ":-}") with (render name (Some "")).
    rewrite (interpolate_one environ name (Some "") Hn) by done.
    unfold resolve. by rewrite Henv.
  - intros name default Hn Hd He Henv.
    rewrite (interpolate_one environ name default Hn Hd He).
    unfold resolve. by rewrite Henv.
  - intros name a rest Hn Ha.
    by rewrite match_at_parse, (parse_line_feed_default name a rest Hn Ha).
Qed.

(** The theorem at work on [${X}] with X set to the empty string, on
    [${Y:-}] with Y unset, and on a placeholder with the default [d] whose
    NAME is the lone surrogate U+D800. *)
Lemma interpolate_string_resolution_order_witness :
  _interpolate_string {[ "X" := "" ]} "${X}" = Ok "" /\
  _interpolate_string {[ "X" := "" ]} "${Y:-}" = Ok "" /\
  _interpolate_string {[ "X" := "" ]} ("${" +:+ U_D800 +:+ ":-d}")
  = Raise ValueError.
Proof.
  pose proof (interpolate_string_resolution_order {[ "X" := "" ]})
    as (_ & Hraise & Hunset & Hset & _).
  split; [|split].
  - apply (Hset "X" None); [by split | done | done | by vm_compute].
  - apply (Hunset "Y"); [by split | done | by vm_compute].
  - apply Hraise. unfold lookups_ok. vm_compute.
    intros H. apply Forall_cons in H as [H _]. discriminate H.
Defined.

(** C1 fails as worded, with DEFAULT any run of characters other than the
    closing brace: a default that holds a line feed is a DEFAULT in that
    sense, so with X set to [v] the placeholder below should give [v]; the
    pattern does not match it and the pass leaves it as it is. *)
Lemma interpolate_string_line_feed_default :
  expands spec_default_char {[ "X" := "v" ]}
    ("${X:-a" +:+ String LF "b}") "v" /\
  _interpolate_string {[ "X" := "v" ]} ("${X:-a" +:+ String LF "b}")
  = Ok ("${X:-a" +:+ String LF "b}") /\
  _interpolate_string {[ "X" := "v" ]} ("${X:-a" +:+ String LF "b}")
  <> Ok "v".
Proof.
  split; [|by vm_compute].
  pose proof (expands_placeholder spec_default_char {[ "X" := "v" ]}
                "X" (Some ("a" +:+ String LF "b")) "" "") as H.
  apply H; [by split | done | constructor].
Qed.

(** ** Malformed placeholders *)

(** C7, as the code has it: an opening [${] that no closing brace follows is
    never matched, the text behind the last closing brace of the input is
    left as it is (so a string without a closing brace is returned
    unchanged).  Nested braces are matched: in [${a${b}}] the pattern
    matches up to the first closing brace with NAME [a${b], so that (the
    name being one that the lookup can encode) the text is replaced by the
    value of a variable of that name followed by the last brace, and is
    left unchanged when no such variable is set. *)
Theorem interpolate_string_malformed (environ : gmap string string) :
  (forall s t, Str.mem "}" t = false ->
      _interpolate_string environ (s +:+ t)
      = (fun out => out +:+ t) <$> _interpolate_string environ s) /\
  (forall s, Str.mem "}" s = false -> _interpolate_string environ s = Ok s) /\
  (forall a b,
      all_chars name_char a = true -> all_chars name_char b = true ->
      encodable (a +:+ "${" +:+ b) = true ->
      _interpolate_string environ ("${" +:+ a +:+ "${" +:+ b +:+ "}}")
      = Ok (match environ !! (a +:+ "${" +:+ b) with
            | Some v => v +:+ "}"
            | None => "${" +:+ a +:+ "${" +:+ b +:+ "}}"
            end)).
Proof.
  split; [|split].
  - apply interpolate_app_no_brace.
  - apply interpolate_no_brace.
  - intros a b Ha Hb He.
    assert (name_ok (a +:+ "${" +:+ b)) as Hn.
    { split; [by destruct a|].
      clear -Ha Hb. induction a as [|x a IH]; simpl in *.
      - by rewrite Hb.
      - apply andb_true_iff in Ha as [-> Ha]. by apply IH. }
    replace ("${" +:+ a +:+ "${" +:+ b +:+ "}}")
      with (render (a +:+ "${" +:+ b) None +:+ "}")
      by (unfold render; by norm_app).
    rewrite (interpolate_placeholder environ _ "}" "}" None Hn I He)
      by done.
    unfold resolve. by destruct (environ !! (a +:+ "${" +:+ b)).
Qed.

(** The theorem at work on [${X] and on [${A${B}}] in an empty
    environment. *)
Lemma interpolate_string_malformed_witness :
  _interpolate_string ∅ "${X" = Ok "${X" /\
  _interpolate_string ∅ "${A${B}}" = Ok "${A${B}}".
Proof.
  pose proof (interpolate_string_malformed ∅) as (_ & Hopen & Hnested).
  split.
  - by apply (Hopen "${X").
  - by apply (Hnested "A" "B").
Defined.

(** C7 fails as worded: the pattern does match inside nested braces.  On
    the claim's own [${A${B}}] it matches [${A${B}] with NAME [A${B], and a
    variable of that name is substituted; on [${A:-${B}}] it matches
    [${A:-${B}] with DEFAULT [${B], and with nothing set the output is
    [${B}], not the input. *)
Lemma interpolate_string_nested_braces_matched :
  match_at pattern "${A${B}}"
  = Some (MatchObject "${A${B}" (groups_of "A${B" None)) /\
  _interpolate_string {[ "A${B" := "v" ]} "${A${B}}" = Ok "v}" /\
  _interpolate_string ∅ "${A:-${B}}" = Ok "${B}".
Proof. by vm_compute. Qed.

End InterpolateString.

(* ================================================================== *)
(** * The interpolation of a configuration tree *)

Module InterpolateTree.
Import Py Re ConfigInterpolation Placeholder Referenced.
Import StrFacts PatternFacts.
Import InterpolateString.

(** Induction on a configuration with the hypothesis for every value of a
    dictionary and every element of a list. *)
Lemma config_induction (P : config -> Prop) :
  (forall s, P (CStr s)) ->
  (forall kvs, Forall (fun kv => P kv.2) kvs -> P (CDict kvs)) ->
  (forall xs, Forall P xs -> P (CList xs)) ->
  (forall v, P (COther v)) ->
  forall c, P c.
Proof.
  intros Hs Hd Hl Ho.
  fix IH 1. intros [s|kvs|xs|v].
  - apply Hs.
  - apply Hd. induction kvs as [|[k v] kvs IHk]; constructor; [apply IH | done].
  - apply Hl. induction xs as [|x xs IHx]; constructor; [apply IH | done].
  - apply Ho.
Qed.

Lemma depth_pos (c : config) : 1 <= depth c.
Proof. destruct c; simpl; lia. Qed.

Lemma depth_list (limit : nat) (xs : list config) :
  depth (CList xs) <= S limit <-> Forall (fun x => depth x <= limit) xs.
Proof.
  cbn [depth]. induction xs as [|x xs IH].
  - split; [constructor | lia].
  - rewrite Forall_cons, <- IH. lia.
Qed.

Lemma depth_dict (limit : nat) (kvs : list (string * config)) :
  depth (CDict kvs) <= S limit <-> Forall (fun kv => depth kv.2 <= limit) kvs.
Proof.
  cbn [depth]. induction kvs as [|[k v] kvs IH].
  - split; [constructor | lia].
  - rewrite Forall_cons, <- IH. cbn [snd]. lia.
Qed.

Lemma strings_list (P : string -> Prop) (xs : list config) :
  Forall P (strings (CList xs)) <-> Forall (fun x => Forall P (strings x)) xs.
Proof.
  cbn [strings]. induction xs as [|x xs IH].
  - split; constructor.
  - by rewrite Forall_app, Forall_cons, IH.
Qed.

Lemma strings_dict (P : string -> Prop) (kvs : list (string * config)) :
  Forall P (strings (CDict kvs))
  <-> Forall (fun kv => Forall P (strings kv.2)) kvs.
Proof.
  cbn [strings]. induction kvs as [|[k v] kvs IH].
  - split; constructor.
  - by rewrite Forall_app, Forall_cons, IH.
Qed.

(** The depth of a configuration is that of its shape. *)
Lemma depth_shape (c : config) : depth (shape c) = depth c.
Proof.
  induction c as [s|kvs IH|xs IH|v] using config_induction; [done| | |done].
  - cbn [shape depth]. f_equal.
    induction IH as [|[k v] kvs Hv _ IH']; [done|].
    cbn [snd] in Hv. by rewrite Hv, IH'.
  - cbn [shape depth]. f_equal.
    induction IH as [|x xs Hx _ IH']; [done|].
    by rewrite Hx, IH'.
Qed.

Section Tree.
Variable environ : gmap string string.

(** A list is mapped element by element, with one call less room. *)
Lemma interpolate_list (limit : nat) (xs ys : list config) :
  Forall2 (fun x y => interpolate_env_vars limit environ x = Ok y) xs ys ->
  interpolate_env_vars (S limit) environ (CList xs) = Ok (CList ys).
Proof.
  intros H. cbn [interpolate_env_vars].
  induction H as [|x y xs ys Hxy _ IH]; [done|].
  rewrite Hxy. cbn [mbind result_bind].
  destruct (_ xs) as [r|e]; [|done].
  injection IH as ->. done.
Qed.

Lemma interpolate_list_inv (limit : nat) (xs : list config) (c' : config) :
  interpolate_env_vars (S limit) environ (CList xs) = Ok c' ->
  exists ys,
    c' = CList ys /\
    Forall2 (fun x y => interpolate_env_vars limit environ x = Ok y) xs ys.
Proof.
  cbn [interpolate_env_vars]. revert c'.
  induction xs as [|x xs IH]; intros c'.
  - intros [= <-]. exists []. by split; [|constructor].
  - destruct (interpolate_env_vars limit environ x) as [y|e] eqn:Hx;
      cbn [mbind result_bind]; [|done].
    destruct (_ xs) as [r|e] eqn:Hr; [|done].
    intros [= <-].
    destruct (IH (CList r) eq_refl) as (ys & [= ->] & H2).
    exists (y :: ys). by split; [|constructor].
Qed.

(** A dictionary is mapped value by value, under the same keys. *)
Lemma interpolate_dict (limit : nat) (kvs kvs' : list (string * config)) :
  Forall2 (fun kv kv' => kv'.1 = kv.1 /\
             interpolate_env_vars limit environ kv.2 = Ok kv'.2) kvs kvs' ->
  interpolate_env_vars (S limit) environ (CDict kvs) = Ok (CDict kvs').
Proof.
  intros H. cbn [interpolate_env_vars].
  induction H as [|[k v] [k' v'] kvs kvs' [Hk Hv] _ IH]; [done|].
  simpl in Hk, Hv. subst k'. rewrite Hv. cbn [mbind result_bind].
  destruct (_ kvs) as [r|e]; [|done].
  injection IH as ->. done.
Qed.

Lemma interpolate_dict_inv (limit : nat) (kvs : list (string * config))
    (c' : config) :
  interpolate_env_vars (S limit) environ (CDict kvs) = Ok c' ->
  exists kvs',
    c' = CDict kvs' /\
    Forall2 (fun kv kv' => kv'.1 = kv.1 /\
               interpolate_env_vars limit environ kv.2 = Ok kv'.2) kvs kvs'.
Proof.
  cbn [interpolate_env_vars]. revert c'.
  induction kvs as [|[k v] kvs IH]; intros c'.
  - intros [= <-]. exists []. by split; [|constructor].
  - destruct (interpolate_env_vars limit environ v) as [v'|e] eqn:Hv;
      cbn [mbind result_bind]; [|done].
    destruct (_ kvs) as [r|e] eqn:Hr; [|done].
    intros [= <-].
    destruct (IH (CDict r) eq_refl) as (kvs' & [= ->] & H2).
    exists ((k, v') :: kvs'). by split; [|constructor].
Qed.

(** The keys of the result of a dictionary. *)
Lemma Forall2_keys (limit : nat) (kvs kvs' : list (string * config)) :
  Forall2 (fun kv kv' => kv'.1 = kv.1 /\
             interpolate_env_vars limit environ kv.2 = Ok kv'.2) kvs kvs' ->
  kvs'.*1 = kvs.*1.
Proof.
  induction 1 as [|[k v] [k' v'] kvs kvs' [Hk _] _ IH]; [done|].
  simpl in Hk. subst k'. cbn [fmap list_fmap fst]. by f_equal.
Qed.

(** What a call that returns has returned: the shape is kept and the
    strings are interpolated one for one. *)
Lemma interpolate_spec (limit : nat) (c c' : config) :
  interpolate_env_vars limit environ c = Ok c' ->
  shape c' = shape c /\
  Forall2 (fun s s' => _interpolate_string environ s = Ok s')
    (strings c) (strings c').
Proof.
  revert limit c'.
  induction c as [s|kvs IH|xs IH|v] using config_induction;
    intros [|limit] c'; try done.
  - cbn [interpolate_env_vars].
    destruct (_interpolate_string environ s) as [out|e] eqn:Hs; [|done].
    intros [= <-]. split; [done|]. by repeat constructor.
  - intros H. apply interpolate_dict_inv in H as (kvs' & -> & H2).
    cbn [shape strings].
    induction H2 as [|[k v] [k' v'] kvs kvs' [Hk Hv] _ IH2]; [done|].
    apply Forall_cons in IH as [IHv IH]. cbn [fst snd] in *. subst k'.
    destruct (IHv _ _ Hv) as [Hsv Hstr].
    destruct (IH2 IH) as [[= Hshape] Hstrs].
    split; [by rewrite Hsv, Hshape | by apply Forall2_app].
  - intros H. apply interpolate_list_inv in H as (ys & -> & H2).
    cbn [shape strings].
    induction H2 as [|x y xs ys Hxy _ IH2]; [done|].
    apply Forall_cons in IH as [IHx IH].
    destruct (IHx _ _ Hxy) as [Hsx Hstr].
    destruct (IH2 IH) as [[= Hshape] Hstrs].
    split; [by rewrite Hsx, Hshape | by apply Forall2_app].
  - by intros [= <-].
Qed.

Lemma list_returns (limit : nat) (xs : list config) :
  returns (interpolate_env_vars (S limit) environ (CList xs))
  <-> Forall (fun x => returns (interpolate_env_vars limit environ x)) xs.
Proof.
  split.
  - intros [c' Hc]. apply interpolate_list_inv in Hc as (ys & _ & H2).
    induction H2; constructor; [by eexists | done].
  - intros H.
    assert (exists ys, Forall2 (fun x y =>
               interpolate_env_vars limit environ x = Ok y) xs ys) as [ys H2].
    { induction H as [|x xs [y Hy] _ [ys IH]]; [by exists []|].
      exists (y :: ys). by constructor. }
    exists (CList ys). by apply interpolate_list.
Qed.

Lemma dict_returns (limit : nat) (kvs : list (string * config)) :
  returns (interpolate_env_vars (S limit) environ (CDict kvs))
  <-> Forall (fun kv => returns (interpolate_env_vars limit environ kv.2)) kvs.
Proof.
  split.
  - intros [c' Hc]. apply interpolate_dict_inv in Hc as (kvs' & _ & H2).
    induction H2 as [|kv kv' kvs kvs' [_ Hv] _ IH]; constructor;
      [by eexists | done].
  - intros H.
    assert (exists kvs', Forall2 (fun kv kv' => kv'.1 = kv.1 /\
               interpolate_env_vars limit environ kv.2 = Ok kv'.2) kvs kvs')
      as [kvs' H2].
    { induction H as [|[k v] kvs [v' Hv] _ [kvs' IH]]; [by exists []|].
      exists ((k, v') :: kvs'). by constructor. }
    exists (CDict kvs'). by apply interpolate_dict.
Qed.

(** A call returns exactly when there is room for the depth of the
    configuration and every name that is looked up can be encoded. *)
Lemma interpolate_returns_iff (limit : nat) (c : config) :
  returns (interpolate_env_vars limit environ c)
  <-> depth c <= limit /\ Forall lookups_ok (strings c).
Proof.
  revert limit.
  induction c as [s|kvs IH|xs IH|v] using config_induction; intros [|limit].
  - split; [by intros [? ?] | cbn; lia].
  - cbn [interpolate_env_vars depth strings].
    rewrite Forall_singleton, <- (interpolate_string_returns_iff environ).
    split.
    + intros [c' Hc]. split; [lia|].
      destruct (_interpolate_string environ s) as [out|e]; [by eexists|done].
    + intros [_ [out ->]]. by eexists.
  - split; [by intros [? ?] | pose proof (depth_pos (CDict kvs)); lia].
  - rewrite dict_returns, depth_dict, strings_dict, <- Forall_and.
    induction IH as [|kv kvs Hkv _ IHkvs]; [split; constructor|].
    by rewrite !Forall_cons, (Hkv limit), IHkvs.
  - split; [by intros [? ?] | pose proof (depth_pos (CList xs)); lia].
  - rewrite list_returns, depth_list, strings_list, <- Forall_and.
    induction IH as [|x xs Hx _ IHxs]; [split; constructor|].
    by rewrite !Forall_cons, (Hx limit), IHxs.
  - split; [by intros [? ?] | cbn; lia].
  - split; [intros _; split; [cbn; lia | constructor] | by eexists].
Qed.

(** The exceptions of a call: [RecursionError] and [UnicodeEncodeError]. *)
Lemma interpolate_string_raise (s : string) (e : exn) :
  _interpolate_string environ s = Raise e -> e = ValueError.
Proof.
  intros H. destruct (lookups_ok_dec s) as [Hok|Hbad].
  - apply (interpolate_string_returns environ) in Hok as [out Ho]. congruence.
  - rewrite (interpolate_string_raises environ s Hbad) in H. congruence.
Qed.

Lemma interpolate_raise (limit : nat) (c : config) (e : exn) :
  interpolate_env_vars limit environ c = Raise e ->
  e = RecursionError \/ e = ValueError.
Proof.
  revert limit.
  induction c as [s|kvs IH|xs IH|v] using config_induction;
    intros [|limit]; try (intros [= <-]; by left); try done.
  - cbn [interpolate_env_vars].
    destruct (_interpolate_string environ s) as [out|e'] eqn:Hs; [done|].
    intros [= <-]. right. by eapply interpolate_string_raise.
  - cbn [interpolate_env_vars].
    induction IH as [|[k v] kvs Hv _ IHkvs]; [done|]. cbn [snd] in Hv.
    destruct (interpolate_env_vars limit environ v) as [v'|e'] eqn:Hv';
      cbn [mbind result_bind].
    + destruct (_ kvs) as [r|e'] eqn:Hr; [done|].
      intros [= <-]. by apply IHkvs.
    + intros [= <-]. by apply (Hv limit).
  - cbn [interpolate_env_vars].
    induction IH as [|x xs Hx _ IHxs]; [done|].
    destruct (interpolate_env_vars limit environ x) as [y|e'] eqn:Hx';
      cbn [mbind result_bind].
    + destruct (_ xs) as [r|e'] eqn:Hr; [done|].
      intros [= <-]. by apply IHxs.
    + intros [= <-]. by apply (Hx limit).
Qed.

(** With room for the depth of the configuration, what a call raises is
    [UnicodeEncodeError]. *)
Lemma interpolate_raise_room (limit : nat) (c : config) (e : exn) :
  depth c <= limit ->
  interpolate_env_vars limit environ c = Raise e -> e = ValueError.
Proof.
  intros Hd He.
  destruct (interpolate_raise limit c e He) as [->|]; [|done].
  destruct (decide (Forall lookups_ok (strings c))) as [Hok|Hbad].
  - destruct (proj2 (interpolate_returns_iff limit c) (conj Hd Hok))
      as [c' Hc]. congruence.
  - exfalso. revert limit Hd He Hbad.
    induction c as [s|kvs IH|xs IH|v] using config_induction;
      intros [|limit] Hd He Hbad;
      try (pose proof (depth_pos (CStr s)); lia);
      try (pose proof (depth_pos (CDict kvs)); lia);
      try (pose proof (depth_pos (CList xs)); lia);
      try (pose proof (depth_pos (COther v)); lia).
    + cbn [interpolate_env_vars] in He.
      destruct (_interpolate_string environ s) as [out|e'] eqn:Hs; [done|].
      apply interpolate_string_raise in Hs as ->. done.
    + apply depth_dict in Hd. rewrite strings_dict in Hbad.
      cbn [interpolate_env_vars] in He.
      induction IH as [|[k v] kvs Hv _ IHkvs]; [done|]. cbn [snd] in Hv.
      apply Forall_cons in Hd as [Hdv Hd].
      destruct (interpolate_env_vars limit environ v) as [v'|e'] eqn:Hv';
        cbn [mbind result_bind fmap result_fmap] in He.
      * apply IHkvs; [done| |].
        -- destruct (_ kvs) as [r|e'] eqn:Hr; [done|]. by injection He as ->.
        -- intros Hall. apply Hbad. constructor; [|done].
           apply (interpolate_returns_iff limit v). by eexists.
      * injection He as ->.
        destruct (decide (Forall lookups_ok (strings v))) as [Hok|Hbadv].
        -- destruct (proj2 (interpolate_returns_iff limit v) (conj Hdv Hok))
             as [c' Hc]. congruence.
        -- by apply (Hv limit).
    + apply depth_list in Hd. rewrite strings_list in Hbad.
      cbn [interpolate_env_vars] in He.
      induction IH as [|x xs Hx _ IHxs]; [done|].
      apply Forall_cons in Hd as [Hdx Hd].
      destruct (interpolate_env_vars limit environ x) as [y|e'] eqn:Hx';
        cbn [mbind result_bind fmap result_fmap] in He.
      * apply IHxs; [done| |].
        -- destruct (_ xs) as [r|e'] eqn:Hr; [done|]. by injection He as ->.
        -- intros Hall. apply Hbad. constructor; [|done].
           apply (interpolate_returns_iff limit x). by eexists.
      * injection He as ->.
        destruct (decide (Forall lookups_ok (strings x))) as [Hok|Hbadx].
        -- destruct (proj2 (interpolate_returns_iff limit x) (conj Hdx Hok))
             as [c' Hc]. congruence.
        -- by apply (Hx limit).
    + done.
Qed.

(** Text without a dollar sign in front of the input is copied. *)
Lemma interpolate_text_app (t s : string) :
  Str.mem "$" t = false ->
  _interpolate_string environ (t +:+ s)
  = (fun out => t +:+ out) <$> _interpolate_string environ s.
Proof.
  induction t as [|c t IH]; intros Ht; simpl.
  - by destruct (_interpolate_string environ s).
  - simpl in Ht. apply orb_false_iff in Ht as [Hc Ht].
    rewrite interpolate_step, parse_not_dollar, (IH Ht).
    + by destruct (_interpolate_string environ s).
    + intros ->. by rewrite Ascii.eqb_refl in Hc.
Qed.

(** A string without a dollar sign is left as it is. *)
Lemma interpolate_no_dollar (s : string) :
  Str.mem "$" s = false -> _interpolate_string environ s = Ok s.
Proof.
  intros Hs. rewrite <- (app_nil_r s) at 1.
  rewrite (interpolate_text_app s "" Hs), interpolate_nil. simpl.
  by rewrite app_nil_r.
Qed.

(** Settled segments are replaced by what they stand for, and no dollar
    sign is left. *)
Lemma interpolate_settled (segs : list segment) :
  Forall (settled environ) segs ->
  _interpolate_string environ (text segs) = Ok (value environ segs) /\
  Str.mem "$" (value environ segs) = false.
Proof.
  unfold text, value.
  induction 1 as [|g segs Hg _ [IH1 IH2]]; [done|].
  cbn [fmap list_fmap concat]. rewrite mem_app, IH2.
  destruct g as [t|name default]; simpl in Hg |- *.
  - rewrite (interpolate_text_app t _ Hg), IH1, Hg. done.
  - destruct Hg as (Hn & Hd & He & v & Hv & Hfree).
    rewrite (interpolate_placeholder environ name _ _ default Hn Hd He IH1).
    unfold resolve. by rewrite Hv, Hfree.
Qed.

(** A configuration whose strings the pass leaves alone is left alone, when
    there is room for its depth. *)
Lemma interpolate_fixed (limit : nat) (c : config) :
  depth c <= limit ->
  Forall (fun s => _interpolate_string environ s = Ok s) (strings c) ->
  interpolate_env_vars limit environ c = Ok c.
Proof.
  revert limit.
  induction c as [s|kvs IH|xs IH|v] using config_induction;
    intros [|limit] Hd HP;
    try (pose proof (depth_pos (CStr s)); lia);
    try (pose proof (depth_pos (CDict kvs)); lia);
    try (pose proof (depth_pos (CList xs)); lia);
    try (pose proof (depth_pos (COther v)); lia).
  - apply Forall_cons in HP as [HP _].
    cbn [interpolate_env_vars]. by rewrite HP.
  - apply interpolate_dict.
    apply depth_dict in Hd. apply strings_dict in HP.
    induction IH as [|[k v] kvs Hv _ IH']; [done|].
    apply Forall_cons in Hd as [Hdv Hd]. apply Forall_cons in HP as [HPv HP].
    constructor; [by split; [|apply Hv] | by apply IH'].
  - apply interpolate_list.
    apply depth_list in Hd. apply strings_list in HP.
    induction IH as [|x xs Hx _ IH']; [done|].
    apply Forall_cons in Hd as [Hdx Hd]. apply Forall_cons in HP as [HPx HP].
    constructor; [by apply Hx | by apply IH'].
  - done.
Qed.
End Tree.

(** ** The traversal *)

(** C8: a call handles a string by [_interpolate_string]; a list is mapped
    element by element, so that order and length are kept; a dictionary has
    each value interpolated under its own key, the keys being left as they
    are, in their order; a value that is neither a string nor a list nor a
    dictionary (a number, a boolean, None) is returned unchanged.  When the
    recursion limit leaves room for the depth of the configuration, the call
    returns exactly when every NAME that is looked up can be encoded;
    [limit] is the number of nested calls there is room for. *)
Theorem interpolate_env_vars_structure (limit : nat)
    (environ : gmap string string) :
  (forall c,
      depth c <= limit ->
      (returns (interpolate_env_vars limit environ c)
       <-> Forall lookups_ok (strings c))) /\
  (forall s,
      interpolate_env_vars (S limit) environ (CStr s)
      = CStr <$> _interpolate_string environ s) /\
  (forall xs c',
      interpolate_env_vars (S limit) environ (CList xs) = Ok c'
      <-> exists ys,
            c' = CList ys /\
            List.length ys = List.length xs /\
            Forall2 (fun x y => interpolate_env_vars limit environ x = Ok y)
              xs ys) /\
  (forall kvs c',
      interpolate_env_vars (S limit) environ (CDict kvs) = Ok c'
      <-> exists kvs',
            c' = CDict kvs' /\
            kvs'.*1 = kvs.*1 /\
            Forall2 (fun kv kv' =>
                       kv'.1 = kv.1 /\
                       interpolate_env_vars limit environ kv.2 = Ok kv'.2)
              kvs kvs') /\
  (forall v, interpolate_env_vars (S limit) environ (COther v) = Ok (COther v)).
Proof.
  split; [|split; [|split; [|split]]]; [| done | | | done].
  - intros c Hd. rewrite interpolate_returns_iff. tauto.
  - intros xs c'. split.
    + intros H. apply interpolate_list_inv in H as (ys & -> & H2).
      exists ys. split; [done|]. split; [|done].
      symmetry. by eapply Forall2_length.
    + intros (ys & -> & _ & H2). by apply interpolate_list.
  - intros kvs c'. split.
    + intros H. apply interpolate_dict_inv in H as (kvs' & -> & H2).
      exists kvs'. split; [done|]. split; [|done].
      by eapply Forall2_keys.
    + intros (kvs' & -> & _ & H2). by apply interpolate_dict.
Qed.

(** The theorem at work on a list of a placeholder and a number. *)
Lemma interpolate_env_vars_structure_witness :
  returns (interpolate_env_vars 1000 {[ "A" := "v" ]}
             (CList [CStr "${A}"; COther (PyInt 3)])).
Proof.
  apply (interpolate_env_vars_structure 1000 {[ "A" := "v" ]});
    [cbn; lia|].
  repeat constructor; by vm_compute.
Defined.

(** The examples of the docstring and of the specification. *)
Lemma interpolate_env_vars_examples :
  interpolate_env_vars 1000 {[ "API_KEY" := "secret123" ]}
    (CDict [("key", CStr "${API_KEY}")])
  = Ok (CDict [("key", CStr "secret123")]) /\
  interpolate_env_vars 1000 ∅ (CDict [("key", CStr "${MISSING:-default}")])
  = Ok (CDict [("key", CStr "default")]) /\
  interpolate_env_vars 1000 ∅ (CDict [("k", CStr "${X}")])
  = Ok (CDict [("k", CStr "${X}")]) /\
  interpolate_env_vars 1000 {[ "A" := "v" ]}
    (CList [CStr "${A}"; CStr "lit"; CDict [("n", CStr "${A:-z}")]])
  = Ok (CList [CStr "v"; CStr "lit"; CDict [("n", CStr "v")]]) /\
  interpolate_env_vars 1000 {[ "A" := "v" ]}
    (CDict [("${A}", CList [COther PyNone; COther (PyInt 3)])])
  = Ok (CDict [("${A}", CList [COther PyNone; COther (PyInt 3)])]).
Proof. by vm_compute. Qed.

(** ** Idempotence and exceptions *)

(** C9, as the code has it.  The traversal can raise: what it raises is
    [RecursionError] or [UnicodeEncodeError].  When the recursion limit
    leaves room for the depth of the configuration ([limit] nested calls),
    it returns if every NAME that is looked up can be encoded and raises
    [UnicodeEncodeError] if not.  A second pass under the same environment
    returns what the first pass returned when there is room for the
    configuration and every string of it is made of text without a dollar
    sign and of well-formed placeholders of variables whose names can be
    encoded and that are set to values without a dollar sign. *)
Theorem interpolate_env_vars_idempotent (limit : nat)
    (environ : gmap string string) (c : config) :
  (forall e, interpolate_env_vars limit environ c = Raise e ->
     e = RecursionError \/ e = ValueError) /\
  (depth c <= limit ->
   Forall lookups_ok (strings c) ->
   returns (interpolate_env_vars limit environ c)) /\
  (depth c <= limit ->
   ~ Forall lookups_ok (strings c) ->
   interpolate_env_vars limit environ c = Raise ValueError) /\
  (depth c <= limit ->
   Forall (settled_string environ) (strings c) ->
   exists c1,
     interpolate_env_vars limit environ c = Ok c1 /\
     interpolate_env_vars limit environ c1 = Ok c1).
Proof.
  split; [intros e; apply interpolate_raise|].
  split; [intros Hd Hok; by apply interpolate_returns_iff|].
  split.
  { intros Hd Hbad.
    destruct (interpolate_env_vars limit environ c) as [c'|e] eqn:Hc.
    - exfalso. apply Hbad.
      apply (interpolate_returns_iff environ limit c). by eexists.
    - by rewrite (interpolate_raise_room environ limit c e Hd Hc). }
  intros Hd Hc.
  assert (Forall lookups_ok (strings c)) as Hok.
  { eapply Forall_impl; [exact Hc|].
    intros s (segs & -> & Hsegs).
    apply (interpolate_string_returns_iff environ).
    destruct (interpolate_settled environ segs Hsegs) as [Ho _].
    by eexists. }
  destruct (proj2 (interpolate_returns_iff environ limit c) (conj Hd Hok))
    as [c1 H1].
  exists c1. split; [done|].
  destruct (interpolate_spec environ limit c c1 H1) as [Hshape Hstr].
  apply interpolate_fixed.
  - by rewrite <- (depth_shape c1), Hshape, depth_shape.
  - clear -Hc Hstr. induction Hstr as [|s s' l l' Hs _ IH]; [constructor|].
    apply Forall_cons in Hc as [(segs & -> & Hsegs) Hc].
    constructor; [|by apply IH].
    destruct (interpolate_settled environ segs Hsegs) as [Ho Hfree].
    rewrite Ho in Hs. injection Hs as <-.
    by apply interpolate_no_dollar.
Qed.

(** The theorem at work on [["${A}"; "lit"; {"n": "${A:-z}"}]] with A set to
    [v]. *)
Lemma interpolate_env_vars_idempotent_witness :
  exists c1,
    interpolate_env_vars 1000 {[ "A" := "v" ]}
      (CList [CStr "${A}"; CStr "lit"; CDict [("n", CStr "${A:-z}")]]) = Ok c1 /\
    interpolate_env_vars 1000 {[ "A" := "v" ]} c1 = Ok c1.
Proof.
  apply (interpolate_env_vars_idempotent 1000 {[ "A" := "v" ]}
           (CList [CStr "${A}"; CStr "lit"; CDict [("n", CStr "${A:-z}")]]));
    [cbn; lia|].
  assert (settled {[ "A" := "v" ]} (Var "A" None)) as H1.
  { split; [by split|]. split; [done|]. split; [done|].
    exists "v". by vm_compute. }
  assert (settled {[ "A" := "v" ]} (Var "A" (Some "z"))) as H2.
  { split; [by split|]. split; [done|]. split; [done|].
    exists "v". by vm_compute. }
  repeat constructor.
  - exists [Var "A" None]. split; [done | by constructor].
  - exists [Text "lit"]. split; [done | by repeat constructor].
  - exists [Var "A" (Some "z")]. split; [done | by constructor].
Defined.

(** C9 fails as worded, in both halves.  With A set to [${B}] and B set to
    [x], every variable that the configuration refers to is defined, the
    first pass gives [["${B}"; "x"]] and the second pass [["x"; "x"]].  And
    the call raises: [UnicodeEncodeError] on a placeholder whose NAME is the
    lone surrogate U+D800, and [RecursionError] on a string inside 1000
    nested lists, which takes 1001 nested calls, where there is room for
    1000 (the limit that Python starts with is 1000 frames). *)
Lemma interpolate_env_vars_second_pass_differs :
  ({[ "A" := "${B}"; "B" := "x" ]} : gmap string string) !! "A" = Some "${B}" /\
  ({[ "A" := "${B}"; "B" := "x" ]} : gmap string string) !! "B" = Some "x" /\
  interpolate_env_vars 1000 {[ "A" := "${B}"; "B" := "x" ]}
    (CList [CStr "${A}"; CStr "${B}"])
  = Ok (CList [CStr "${B}"; CStr "x"]) /\
  interpolate_env_vars 1000 {[ "A" := "${B}"; "B" := "x" ]}
    (CList [CStr "${B}"; CStr "x"])
  = Ok (CList [CStr "x"; CStr "x"]) /\
  interpolate_env_vars 1000 ∅ (CList [CStr ("${" +:+ U_D800 +:+ "}")])
  = Raise ValueError /\
  interpolate_env_vars 1000 ∅ (Nat.iter 1000 (fun c => CList [c]) (CStr "x"))
  = Raise RecursionError.
Proof. by vm_compute. Qed.

(** A second pass can also meet a placeholder that the first pass put
    together from plain text: with A set to the empty string,
    [${X:${A}-d}] gives [${X:-d}], which a second pass replaces by [d]. *)
Lemma interpolate_string_spliced_placeholder :
  _interpolate_string {[ "A" := "" ]} "${X:${A}-d}" = Ok "${X:-d}" /\
  _interpolate_string {[ "A" := "" ]} "${X:-d}" = Ok "d".
Proof. by vm_compute. Qed.

End InterpolateTree.

(* ================================================================== *)
(** * The GPS Fabric connector *)

Module FabricFacts.
Import Py Json Fabric.

(** Unfolding the primitive operations of a computation. *)
Ltac run_io :=
  unfold try_except, share_status, requests_post, raise_for_status, lift,
    handler, logging_error, logging_info;
  cbn [mbind io_bind mret io_ret fmap result_fmap app fst snd].

(** Case analysis on every test that a computation makes. *)
Ltac crunch :=
  repeat (cbn;
    match goal with
    | |- context [if ?b then _ else _] => destruct b eqn:?
    | |- context [match assoc ?k ?l with _ => _ end] =>
        destruct (assoc k l) eqn:?
    end);
  cbn; eauto 10.

Section Send.
Variable self : GPSFabricConnector.
Variable w : world.

Abbreviation latitude := (dynamic_variable w "latitude").
Abbreviation longitude := (dynamic_variable w "longitude").
Abbreviation yaw := (dynamic_variable w "yaw_deg").

(** The two ways through [send_coordinates]. *)
Lemma send_coordinates_unfold :
  send_coordinates self w =
    if some_coordinate_is_None w then
      ((fetch_trace w ++
          [EvLog ERROR (MsgInvalidCoordinates latitude longitude yaw)])%list,
       Ok tt)
    else
      let '(t, r) :=
        try_except (share_status self w latitude longitude yaw) handler in
      ((fetch_trace w ++ t)%list, r).
Proof.
  unfold send_coordinates, some_coordinate_is_None, fetch_trace.
  unfold get_dynamic_variable, logging_info.
  cbn [mbind io_bind].
  destruct (_ || _); [done|].
  by destruct (try_except _ _).
Qed.

(** The events before the validation report no outcome and post
    nothing. *)
Lemma outcomes_fetch_trace (t : list event) :
  outcomes (fetch_trace w ++ t) = outcomes t.
Proof. reflexivity. Qed.

(** Whatever the network does, the [try] statement ends normally, after
    the request and one log record that reports an outcome. *)
Lemma exchange_reports (lat lon y : value) :
  exists l m o,
    try_except (share_status self w lat lon y) handler
    = ([EvPost (share_status_request self lat lon y); EvLog l m], Ok tt) /\
    outcome_of (EvLog l m) = Some o.
Proof.
  run_io.
  destruct (network w _) as [[status body]|e]; cbn [status_code body_json].
  - destruct (_ && _); cbn; [eauto 10|].
    destruct body as [v|e]; [destruct v|]; crunch.
  - crunch.
Qed.

(** A call with the three values present: the events up to the
    validation, the request, one log record. *)
Lemma send_coordinates_valid :
  some_coordinate_is_None w = false ->
  exists l m o,
    send_coordinates self w
    = ((fetch_trace w ++ [EvPost (request_of self w); EvLog l m])%list,
       Ok tt) /\
    try_except (share_status self w latitude longitude yaw) handler
    = ([EvPost (request_of self w); EvLog l m], Ok tt) /\
    outcome_of (EvLog l m) = Some o.
Proof.
  intros Hv. rewrite send_coordinates_unfold, Hv.
  destruct (exchange_reports latitude longitude yaw) as (l & m & o & -> & Ho).
  by exists l, m, o.
Qed.

(** The outcome of a call with the three values present is the outcome
    of its [try] statement. *)
Lemma outcomes_valid :
  some_coordinate_is_None w = false ->
  outcomes (send_coordinates self w).1
  = outcomes (try_except (share_status self w latitude longitude yaw)
                handler).1.
Proof.
  intros Hv. rewrite send_coordinates_unfold, Hv.
  by destruct (try_except _ _).
Qed.

Lemma send_coordinates_invalid :
  some_coordinate_is_None w = true ->
  send_coordinates self w
  = ((fetch_trace w ++
        [EvLog ERROR (MsgInvalidCoordinates latitude longitude yaw)])%list,
     Ok tt).
Proof. intros Hv. by rewrite send_coordinates_unfold, Hv. Qed.
End Send.

(** ** Classification of the response *)

(** C2, as the code has it: when the three values are present and the
    network answers the request with a response, the call reports exactly
    one outcome: [HttpError] for a 4xx or 5xx status; for any other status,
    [MalformedResponse] when [.json()] raises a [ValueError] that is not a
    [RequestException], and for a body that is a JSON object, [RpcError]
    when it has a key [error], whatever else it has, else [Success] when
    the value under [result] is truthy, else [MalformedResponse]. *)
Theorem send_coordinates_classifies (self : GPSFabricConnector) (w : world)
    (resp : response) :
  some_coordinate_is_None w = false ->
  network w (request_of self w) = Ok resp ->
  ((400 <= status_code resp < 600)%Z ->
     outcomes (send_coordinates self w).1 = [HttpError]) /\
  (~ (400 <= status_code resp < 600)%Z ->
     (forall e, body_json resp = Raise e ->
        is_ValueError e = true -> is_RequestException e = false ->
        outcomes (send_coordinates self w).1 = [MalformedResponse]) /\
     (forall items, body_json resp = Ok (JObj items) ->
        (forall payload, assoc "error" items = Some payload ->
           outcomes (send_coordinates self w).1 = [RpcError]) /\
        (forall v, assoc "error" items = None ->
           assoc "result" items = Some v -> truthy v = true ->
           outcomes (send_coordinates self w).1 = [Success]) /\
        (assoc "error" items = None ->
           (forall v, assoc "result" items = Some v -> truthy v = false) ->
           outcomes (send_coordinates self w).1 = [MalformedResponse]))).
Proof.
  intros Hv Hnet. rewrite (outcomes_valid self w Hv).
  run_io. fold (request_of self w). rewrite Hnet.
  destruct resp as [status body]. cbn [status_code body_json].
  split.
  - intros Hs.
    assert ((400 <=? status)%Z && (status <? 600)%Z = true) as ->
      by (apply andb_true_iff; lia).
    done.
  - intros Hs.
    assert ((400 <=? status)%Z && (status <? 600)%Z = false) as ->
      by (apply andb_false_iff; lia).
    split.
    + intros e -> Hve Hre. cbn.
      destruct e; try done.
    + intros items ->. cbn. split; [|split].
      * intros payload He. by rewrite He.
      * intros v He Hr Ht. rewrite He. cbn. rewrite Hr. cbn. by rewrite Ht.
      * intros He Hr. rewrite He. cbn.
        destruct (assoc "result" items) as [v|] eqn:Hres; cbn; [|done].
        by rewrite (Hr v eq_refl).
Qed.

(** The theorem at work on the answer [{"result": true}] with status 200. *)
Lemma send_coordinates_classifies_witness :
  outcomes
    (send_coordinates (Connector "http://localhost:8545")
       (World {[ "latitude" := JInt 1; "longitude" := JInt 2;
                 "yaw_deg" := JInt 3 ]}
          (fun _ => Ok (Response 200 (Ok (JObj [("result", JBool true)])))))).1
  = [Success].
Proof.
  pose proof (send_coordinates_classifies (Connector "http://localhost:8545")
    (World {[ "latitude" := JInt 1; "longitude" := JInt 2;
              "yaw_deg" := JInt 3 ]}
       (fun _ => Ok (Response 200 (Ok (JObj [("result", JBool true)])))))
    (Response 200 (Ok (JObj [("result", JBool true)])))) as H.
  destruct H as [_ H]; [by vm_compute | done |].
  destruct H as [_ H]; [cbn; lia|].
  destruct (H [("result", JBool true)] eq_refl) as (_ & Hok & _).
  by apply (Hok (JBool true)).
Defined.

(** C2 fails as worded: a status that is not 2xx need not give
    [HttpError].  [raise_for_status] raises for 4xx and 5xx only, so an
    answer with status 300 or 304 and the body [{"result": true}] is
    reported as [Success]. *)
Lemma send_coordinates_status_304 :
  outcomes
    (send_coordinates (Connector "http://localhost:8545")
       (World {[ "latitude" := JInt 1; "longitude" := JInt 2;
                 "yaw_deg" := JInt 3 ]}
          (fun _ => Ok (Response 304 (Ok (JObj [("result", JBool true)])))))).1
  = [Success] /\
  outcomes
    (send_coordinates (Connector "http://localhost:8545")
       (World {[ "latitude" := JInt 1; "longitude" := JInt 2;
                 "yaw_deg" := JInt 3 ]}
          (fun _ => Ok (Response 300 (Ok (JObj [("result", JBool true)])))))).1
  = [Success].
Proof. by vm_compute. Qed.

(** A parsed body that is no container (the JSON text [null]) is reported
    by the last clause of the [except] chain: the test [ "error" in response ]
    raises [TypeError]. *)
Lemma send_coordinates_null_body :
  outcomes
    (send_coordinates (Connector "http://localhost:8545")
       (World {[ "latitude" := JInt 1; "longitude" := JInt 2;
                 "yaw_deg" := JInt 3 ]}
          (fun _ => Ok (Response 200 (Ok JNull))))).1
  = [UnexpectedError].
Proof. by vm_compute. Qed.

(** A failure of [.json()] that is raised as a [RequestException] (as the
    [JSONDecodeError] of requests 2.27 and later is) is caught by the clause
    for [RequestException], in front of the clause for [ValueError]. *)
Lemma send_coordinates_decode_error_of_requests :
  outcomes
    (send_coordinates (Connector "http://localhost:8545")
       (World {[ "latitude" := JInt 1; "longitude" := JInt 2;
                 "yaw_deg" := JInt 3 ]}
          (fun _ => Ok (Response 200 (Raise ReqValueError))))).1
  = [NetworkError].
Proof. by vm_compute. Qed.

(** The four answers of the specification's examples: status 500; status
    200 with [{"error": {"code": 1}}], with [{"result": true}], with [{}]. *)
Lemma send_coordinates_examples :
  let w body := World {[ "latitude" := JInt 1; "longitude" := JInt 2;
                         "yaw_deg" := JInt 3 ]} (fun _ => Ok body) in
  let c := Connector "http://localhost:8545" in
  outcomes (send_coordinates c (w (Response 500 (Ok (JObj []))))).1
  = [HttpError] /\
  outcomes (send_coordinates c
    (w (Response 200 (Ok (JObj [("error", JObj [("code", JInt 1)])]))))).1
  = [RpcError] /\
  outcomes (send_coordinates c
    (w (Response 200 (Ok (JObj [("result", JBool true)]))))).1
  = [Success] /\
  outcomes (send_coordinates c (w (Response 200 (Ok (JObj []))))).1
  = [MalformedResponse].
Proof. by vm_compute. Qed.

(** ** Validation *)

(** C3: when one of the three values read is None, the call reports
    [RejectedInvalidInput] and returns; it posts nothing, and what it did is
    the three reads and log records, the last of them the error record. *)
Theorem send_coordinates_rejects (self : GPSFabricConnector) (w : world) :
  dynamic_variable w "latitude" = JNull \/
  dynamic_variable w "longitude" = JNull \/
  dynamic_variable w "yaw_deg" = JNull ->
  send_coordinates self w
  = ([EvLog INFO MsgSending;
      EvGet "latitude"; EvGet "longitude"; EvGet "yaw_deg";
      EvLog INFO (MsgLatitude (dynamic_variable w "latitude"));
      EvLog INFO (MsgLongitude (dynamic_variable w "longitude"));
      EvLog INFO (MsgYaw (dynamic_variable w "yaw_deg"));
      EvLog ERROR (MsgInvalidCoordinates (dynamic_variable w "latitude")
                     (dynamic_variable w "longitude")
                     (dynamic_variable w "yaw_deg"))],
     Ok tt) /\
  outcomes (send_coordinates self w).1 = [RejectedInvalidInput] /\
  posts (send_coordinates self w).1 = [].
Proof.
  intros H.
  assert (some_coordinate_is_None w = true) as Hv.
  { unfold some_coordinate_is_None.
    destruct H as [-> | [-> | ->]]; cbn; by rewrite ?orb_true_r. }
  by rewrite (send_coordinates_invalid self w Hv).
Qed.

(** The theorem at work with latitude missing, longitude 1 and yaw 2. *)
Lemma send_coordinates_rejects_witness :
  outcomes
    (send_coordinates (Connector "http://localhost:8545")
       (World {[ "longitude" := JInt 1; "yaw_deg" := JInt 2 ]}
          (fun _ => Raise ReqOther))).1 = [RejectedInvalidInput] /\
  posts
    (send_coordinates (Connector "http://localhost:8545")
       (World {[ "longitude" := JInt 1; "yaw_deg" := JInt 2 ]}
          (fun _ => Raise ReqOther))).1 = [].
Proof.
  apply (send_coordinates_rejects (Connector "http://localhost:8545")
           (World {[ "longitude" := JInt 1; "yaw_deg" := JInt 2 ]}
              (fun _ => Raise ReqOther))).
  left. by vm_compute.
Defined.

(** ** No exception leaves the call *)

(** C4: whatever the network does (it raises any exception, or it answers
    with any status and a body that parses to any value or fails to parse
    with any exception), the call returns normally and reports exactly one
    outcome.  A timeout of the request is reported as [NetworkError], and an
    exception that no clause names as [UnexpectedError]. *)
Theorem send_coordinates_never_raises (self : GPSFabricConnector) (w : world) :
  (send_coordinates self w).2 = Ok tt /\
  (exists o, outcomes (send_coordinates self w).1 = [o]) /\
  (some_coordinate_is_None w = false ->
   network w (request_of self w) = Raise ReqTimeout ->
   outcomes (send_coordinates self w).1 = [NetworkError]) /\
  (forall name, some_coordinate_is_None w = false ->
   network w (request_of self w) = Raise (OtherException name) ->
   outcomes (send_coordinates self w).1 = [UnexpectedError]).
Proof.
  split; [|split; [|split]].
  - destruct (some_coordinate_is_None w) eqn:Hv.
    + by rewrite (send_coordinates_invalid self w Hv).
    + by destruct (send_coordinates_valid self w Hv) as (l & m & o & -> & _).
  - destruct (some_coordinate_is_None w) eqn:Hv.
    + rewrite (send_coordinates_invalid self w Hv). by exists RejectedInvalidInput.
    + destruct (send_coordinates_valid self w Hv) as (l & m & o & -> & _ & Ho).
      exists o. cbn [fst]. rewrite outcomes_fetch_trace.
      unfold outcomes. cbn [omap list_omap]. by rewrite Ho.
  - intros Hv Hnet. rewrite (outcomes_valid self w Hv).
    run_io. fold (request_of self w). by rewrite Hnet.
  - intros name Hv Hnet. rewrite (outcomes_valid self w Hv).
    run_io. fold (request_of self w). by rewrite Hnet.
Qed.

(** The theorem at work on a request that times out. *)
Lemma send_coordinates_never_raises_witness :
  (send_coordinates (Connector "http://localhost:8545")
     (World {[ "latitude" := JInt 1; "longitude" := JInt 2;
               "yaw_deg" := JInt 3 ]}
        (fun _ => Raise ReqTimeout))).2 = Ok tt /\
  outcomes
    (send_coordinates (Connector "http://localhost:8545")
       (World {[ "latitude" := JInt 1; "longitude" := JInt 2;
                 "yaw_deg" := JInt 3 ]}
          (fun _ => Raise ReqTimeout))).1 = [NetworkError].
Proof.
  pose proof (send_coordinates_never_raises (Connector "http://localhost:8545")
    (World {[ "latitude" := JInt 1; "longitude" := JInt 2;
              "yaw_deg" := JInt 3 ]}
       (fun _ => Raise ReqTimeout))) as (Hret & _ & Htimeout & _).
  split; [exact Hret|]. apply Htimeout; [by vm_compute | done].
Defined.

(** ** The request *)

(** C5: when none of the three values read is None, the call posts exactly
    one request: to the configured endpoint, with the header
    [Content-Type: application/json], the timeout 10, and the JSON-RPC body
    with the method [omp2p_shareStatus], the one parameter
    [{latitude, longitude, yaw}], the id 1 and the version ["2.0"]. *)
Theorem send_coordinates_posts_once (self : GPSFabricConnector) (w : world) :
  dynamic_variable w "latitude" <> JNull ->
  dynamic_variable w "longitude" <> JNull ->
  dynamic_variable w "yaw_deg" <> JNull ->
  posts (send_coordinates self w).1
  = [ {| url := fabric_endpoint self;
         json :=
           JObj [("method", JStr "omp2p_shareStatus");
                 ("params",
                  JArr [JObj [("latitude", dynamic_variable w "latitude");
                              ("longitude", dynamic_variable w "longitude");
                              ("yaw", dynamic_variable w "yaw_deg")]]);
                 ("id", JInt 1);
                 ("jsonrpc", JStr "2.0")];
         headers := [("Content-Type", "application/json")];
         timeout := 10 |} ].
Proof.
  intros Hlat Hlon Hyaw.
  assert (some_coordinate_is_None w = false) as Hv.
  { unfold some_coordinate_is_None.
    destruct (dynamic_variable w "latitude"), (dynamic_variable w "longitude"),
      (dynamic_variable w "yaw_deg"); done. }
  by destruct (send_coordinates_valid self w Hv) as (l & m & o & -> & _).
Qed.

(** The theorem at work on the position (1, 2) with yaw 3 and a network
    that times out. *)
Lemma send_coordinates_posts_once_witness :
  List.length
    (posts
       (send_coordinates (Connector "http://localhost:8545")
          (World {[ "latitude" := JInt 1; "longitude" := JInt 2;
                    "yaw_deg" := JInt 3 ]}
             (fun _ => Raise ReqTimeout))).1) = 1.
Proof.
  rewrite (send_coordinates_posts_once (Connector "http://localhost:8545")
    (World {[ "latitude" := JInt 1; "longitude" := JInt 2;
              "yaw_deg" := JInt 3 ]}
       (fun _ => Raise ReqTimeout))); [done | by vm_compute..].
Defined.

(** ** The reads *)

(** A call posts to the endpoint of the connector or not at all, and never
    twice. *)
Lemma posts_send_coordinates (self : GPSFabricConnector) (w : world) :
  posts (send_coordinates self w).1
  = if some_coordinate_is_None w then [] else [request_of self w].
Proof.
  destruct (some_coordinate_is_None w) eqn:Hv.
  - by rewrite (send_coordinates_invalid self w Hv).
  - by destruct (send_coordinates_valid self w Hv) as (l & m & o & -> & _).
Qed.

(** C6, as the code has it: every call starts, after its first log record,
    by reading the dynamic variables [latitude], [longitude] and [yaw_deg],
    in this order, and reads nothing else; and the value read under
    [yaw_deg] is what is sent as [yaw]: the call posts nothing when one of
    the three values is None, and else the one request whose parameter holds
    the three values read under [latitude], [longitude] and [yaw]. *)
Theorem send_coordinates_fetches (self : GPSFabricConnector) (w : world) :
  fetches (send_coordinates self w).1 = ["latitude"; "longitude"; "yaw_deg"] /\
  (exists rest,
     (send_coordinates self w).1
     = (EvLog INFO MsgSending
        :: EvGet "latitude" :: EvGet "longitude" :: EvGet "yaw_deg"
        :: rest)%list) /\
  posts (send_coordinates self w).1
  = if some_coordinate_is_None w then []
    else [ {| url := fabric_endpoint self;
              json :=
                JObj [("method", JStr "omp2p_shareStatus");
                      ("params",
                       JArr [JObj [("latitude", dynamic_variable w "latitude");
                                   ("longitude",
                                    dynamic_variable w "longitude");
                                   ("yaw", dynamic_variable w "yaw_deg")]]);
                      ("id", JInt 1);
                      ("jsonrpc", JStr "2.0")];
              headers := [("Content-Type", "application/json")];
              timeout := 10 |} ].
Proof.
  split; [|split; [|apply posts_send_coordinates]].
  - destruct (some_coordinate_is_None w) eqn:Hv.
    + by rewrite (send_coordinates_invalid self w Hv).
    + by destruct (send_coordinates_valid self w Hv) as (l & m & o & -> & _).
  - destruct (some_coordinate_is_None w) eqn:Hv.
    + rewrite (send_coordinates_invalid self w Hv). by eexists.
    + destruct (send_coordinates_valid self w Hv) as (l & m & o & -> & _).
      by eexists.
Qed.

(** C6 fails as worded: the third variable read is [yaw_deg], not [yaw].
    With [latitude], [longitude] and [yaw] set, the call reads [yaw_deg],
    finds None and rejects the reading. *)
Lemma send_coordinates_reads_yaw_deg :
  fetches
    (send_coordinates (Connector "http://localhost:8545")
       (World {[ "latitude" := JInt 1; "longitude" := JInt 2;
                 "yaw" := JInt 3 ]}
          (fun _ => Raise ReqTimeout))).1
  = ["latitude"; "longitude"; "yaw_deg"] /\
  outcomes
    (send_coordinates (Connector "http://localhost:8545")
       (World {[ "latitude" := JInt 1; "longitude" := JInt 2;
                 "yaw" := JInt 3 ]}
          (fun _ => Raise ReqTimeout))).1
  = [RejectedInvalidInput].
Proof. by vm_compute. Qed.

(** ** The dispatch on the action *)

Section Dispatch.
Context {GPSAction : Type} `{EqDecision GPSAction}.
Variable SHARE_LOCATION : GPSAction.
Variable format_action : GPSAction -> string.

(** C10, as the code has it: [connect] logs the action; it goes on to
    [send_coordinates] exactly when the action is [SHARE_LOCATION].  So
    the three reads occur if and only if the action is [SHARE_LOCATION],
    the request is posted if and only if the action is [SHARE_LOCATION]
    and none of the three values read is None, and for any other action
    there is neither a read nor a request. *)
Theorem connect_dispatch (self : GPSFabricConnector) (w : world)
    (output_interface : GPSInput) :
  (action output_interface = SHARE_LOCATION ->
     connect SHARE_LOCATION format_action self w output_interface
     = ((EvLog INFO (MsgAction (format_action (action output_interface)))
         :: (send_coordinates self w).1)%list,
        (send_coordinates self w).2)) /\
  (action output_interface <> SHARE_LOCATION ->
     connect SHARE_LOCATION format_action self w output_interface
     = ([EvLog INFO (MsgAction (format_action (action output_interface)))],
        Ok tt)) /\
  (fetches (connect SHARE_LOCATION format_action self w output_interface).1
     <> []
   <-> action output_interface = SHARE_LOCATION) /\
  (posts (connect SHARE_LOCATION format_action self w output_interface).1
     <> []
   <-> action output_interface = SHARE_LOCATION /\
       some_coordinate_is_None w = false).
Proof.
  unfold connect, logging_info. cbn [mbind io_bind].
  destruct (decide (action output_interface = SHARE_LOCATION)) as [Ha|Ha].
  - split; [by destruct (send_coordinates self w)|]. split; [done|].
    destruct (some_coordinate_is_None w) eqn:Hv.
    + rewrite (send_coordinates_invalid self w Hv). cbn.
      split; [done|]. split; [done | by intros [_ ?]].
    + destruct (send_coordinates_valid self w Hv) as (l & m & o & -> & _).
      cbn. done.
  - cbn. split; [done|]. split; [done|].
    split; split; try done. by intros [? _].
Qed.
End Dispatch.

(** C10 fails as worded: with the action [SHARE_LOCATION] and no latitude,
    the three reads occur and no request is posted. *)
Lemma connect_share_location_without_request :
  fetches
    (connect "share location" id (Connector "http://localhost:8545")
       (World {[ "longitude" := JInt 1; "yaw_deg" := JInt 2 ]}
          (fun _ => Raise ReqOther))
       {| action := "share location" |}).1
  = ["latitude"; "longitude"; "yaw_deg"] /\
  posts
    (connect "share location" id (Connector "http://localhost:8545")
       (World {[ "longitude" := JInt 1; "yaw_deg" := JInt 2 ]}
          (fun _ => Raise ReqOther))
       {| action := "share location" |}).1
  = [].
Proof. by vm_compute. Qed.

End FabricFacts.

(* ================================================================== *)
(** * More about the interpolation *)

Module InterpolateMore.
Import Py Re ConfigInterpolation Placeholder Referenced.
Import StrFacts PatternFacts InterpolateString InterpolateTree.

(** Two environments that agree on the names that a string refers to give
    the same string. *)
Lemma interpolate_string_agree (env1 env2 : gmap string string) (s : string) :
  (forall name, name ∈ names s -> env1 !! name = env2 !! name) ->
  _interpolate_string env1 s = _interpolate_string env2 s.
Proof.
  remember (String.length s) as n eqn:Hlen.
  revert s Hlen. induction (lt_wf n) as [n _ IH]. intros s -> Hagree.
  rewrite (interpolate_step env1), (interpolate_step env2).
  rewrite names_step in Hagree.
  destruct (parse s) as [[[name default] rest]|] eqn:Hp.
  - apply parse_sound in Hp as (-> & _ & _).
    rewrite (IH (String.length rest)) with (s := rest); [| |done|].
    + unfold resolve. rewrite (Hagree name) by left. done.
    + rewrite length_app. pose proof (render_length name default). lia.
    + intros x Hx. apply Hagree. by right.
  - destruct s as [|c s']; [done|].
    by rewrite (IH (String.length s')) with (s := s'); [|simpl; lia|..].
Qed.

(** Two environments that give the same strings give the same
    configuration. *)
Lemma interpolate_env_vars_ext (limit : nat) (env1 env2 : gmap string string)
    (c : config) :
  Forall (fun s => _interpolate_string env1 s = _interpolate_string env2 s)
    (strings c) ->
  interpolate_env_vars limit env1 c = interpolate_env_vars limit env2 c.
Proof.
  revert limit.
  induction c as [s|kvs IH|xs IH|v] using config_induction;
    intros [|limit] HP; try done.
  - apply Forall_cons in HP as [HP _]. cbn [interpolate_env_vars].
    by rewrite HP.
  - cbn [interpolate_env_vars strings] in *. f_equal.
    induction IH as [|[k v] kvs Hv _ IH']; [done|].
    apply Forall_app in HP as [HPv HP]. cbn [snd] in Hv.
    by rewrite (Hv limit HPv), (IH' HP).
  - cbn [interpolate_env_vars strings] in *. f_equal.
    induction IH as [|x xs Hx _ IH']; [done|].
    apply Forall_app in HP as [HPx HP].
    by rewrite (Hx limit HPx), (IH' HP).
Qed.

(** A string without [${] is left as it is. *)
Lemma interpolate_no_opening (environ : gmap string string) (s : string) :
  Str.contains "${" s = false -> _interpolate_string environ s = Ok s.
Proof.
  induction s as [|c s IH]; intros Hs; [done|].
  cbn [Str.contains] in Hs. apply orb_false_iff in Hs as [Hstart Hs].
  rewrite interpolate_step, (IH Hs).
  destruct (parse (String c s)) as [[[name default] rest]|] eqn:Hp; [|done].
  apply parse_sound in Hp as (Heq & _ & _).
  rewrite Heq in Hstart.
  destruct default; cbn in Hstart; by rewrite !Ascii.eqb_refl in Hstart.
Qed.

(** X1: at every depth the traversal changes the string values only.
    When the recursion limit leaves room for the depth of the configuration
    ([limit] nested calls) and every NAME that is looked up can be encoded,
    the call returns; and whatever it returns has the shape of the input
    (the same keys in the same order, the same lists, the same values that
    are not strings), its strings being the interpolations of the strings of
    the input, one for one and in order. *)
Theorem interpolate_env_vars_shape (limit : nat)
    (environ : gmap string string) (c : config) :
  (depth c <= limit -> Forall lookups_ok (strings c) ->
   exists c',
     interpolate_env_vars limit environ c = Ok c' /\
     shape c' = shape c /\
     Forall2 (fun s s' => _interpolate_string environ s = Ok s')
       (strings c) (strings c')) /\
  (forall c',
     interpolate_env_vars limit environ c = Ok c' ->
     shape c' = shape c /\
     Forall2 (fun s s' => _interpolate_string environ s = Ok s')
       (strings c) (strings c')).
Proof.
  split; [|intros c'; apply (interpolate_spec environ limit)].
  intros Hd Hok.
  destruct (proj2 (interpolate_returns_iff environ limit c) (conj Hd Hok))
    as [c' Hc].
  exists c'. split; [done|]. by apply (interpolate_spec environ limit).
Qed.

(** The theorem at work on a dictionary of a placeholder, a list and a
    number. *)
Lemma interpolate_env_vars_shape_witness :
  exists c',
    interpolate_env_vars 1000 {[ "A" := "v" ]}
      (CDict [("k", CStr "${A}"); ("l", CList [CStr "${B:-d}"]);
              ("n", COther (PyInt 3))]) = Ok c' /\
    shape c' = shape (CDict [("k", CStr "${A}"); ("l", CList [CStr "${B:-d}"]);
                             ("n", COther (PyInt 3))]) /\
    Forall2 (fun s s' => _interpolate_string {[ "A" := "v" ]} s = Ok s')
      ["${A}"; "${B:-d}"] (strings c').
Proof.
  apply (interpolate_env_vars_shape 1000 {[ "A" := "v" ]}
           (CDict [("k", CStr "${A}"); ("l", CList [CStr "${B:-d}"]);
                   ("n", COther (PyInt 3))])).
  - cbn; lia.
  - repeat constructor; by vm_compute.
Defined.

(** X2: a configuration none of whose strings holds [${] is returned as it
    is, whatever the environment, when the recursion limit leaves room for
    its depth ([limit] nested calls). *)
Theorem interpolate_env_vars_no_placeholder (limit : nat)
    (environ : gmap string string) (c : config) :
  depth c <= limit ->
  Forall (fun s => Str.contains "${" s = false) (strings c) ->
  interpolate_env_vars limit environ c = Ok c.
Proof.
  intros Hd Hc. apply interpolate_fixed; [done|].
  eapply Forall_impl; [exact Hc|].
  intros s Hs. by apply interpolate_no_opening.
Qed.

(** The theorem at work on a configuration with dollar signs and braces
    that form no [${]. *)
Lemma interpolate_env_vars_no_placeholder_witness :
  interpolate_env_vars 1000 {[ "A" := "v" ]}
    (CDict [("price", CStr "$5 {A}"); ("${A}", CList [CStr "$ {A}"])])
  = Ok (CDict [("price", CStr "$5 {A}"); ("${A}", CList [CStr "$ {A}"])]).
Proof.
  apply (interpolate_env_vars_no_placeholder 1000 {[ "A" := "v" ]}).
  - cbn; lia.
  - by repeat constructor.
Defined.

(** X3: the result depends on the environment only through the variables
    that the strings of the configuration name: two environments that agree
    on every NAME that the scan of a string finds give the same result,
    whatever the recursion limit. *)
Theorem interpolate_env_vars_local (limit : nat)
    (env1 env2 : gmap string string) (c : config) :
  (forall s name, s ∈ strings c -> name ∈ names s ->
     env1 !! name = env2 !! name) ->
  interpolate_env_vars limit env1 c = interpolate_env_vars limit env2 c.
Proof.
  intros Hagree. apply interpolate_env_vars_ext.
  apply Forall_forall. intros s Hs.
  apply interpolate_string_agree. intros name Hname.
  by apply (Hagree s name).
Qed.

(** The theorem at work: setting B does not change a configuration that
    names only A. *)
Lemma interpolate_env_vars_local_witness :
  interpolate_env_vars 1000 {[ "A" := "v" ]}
    (CList [CStr "${A}/${A:-d}"])
  = interpolate_env_vars 1000 {[ "A" := "v"; "B" := "w" ]}
      (CList [CStr "${A}/${A:-d}"]).
Proof.
  apply interpolate_env_vars_local. intros s name Hs Hname.
  cbn [strings app] in Hs. apply list_elem_of_singleton in Hs as ->.
  vm_compute names in Hname.
  apply elem_of_cons in Hname as [->|Hname]; [by vm_compute|].
  apply list_elem_of_singleton in Hname as ->. by vm_compute.
Defined.

(** X4: what looks like a placeholder and is none.  A colon in a
    placeholder must be followed by a dash: [${NAME:] followed by any other
    character is copied, whether NAME is set or not.  And NAME must not be
    empty: [${}] and [${:] are copied, so that [${:-d}] never gives its
    default. *)
Theorem interpolate_string_not_a_placeholder (environ : gmap string string) :
  (forall name c rest,
      name_ok name -> Str.mem "$" name = false -> c <> "-"%char ->
      _interpolate_string environ ("${" +:+ name +:+ ":" +:+ String c rest)
      = (fun out => "${" +:+ name +:+ ":" +:+ out) <$>
          _interpolate_string environ (String c rest)) /\
  (forall rest,
      _interpolate_string environ ("${}" +:+ rest)
      = (fun out => "${}" +:+ out) <$> _interpolate_string environ rest) /\
  (forall rest,
      _interpolate_string environ ("${:" +:+ rest)
      = (fun out => "${:" +:+ out) <$> _interpolate_string environ rest).
Proof.
  split; [|split].
  - intros name c rest [Hne Hname] Hfree Hc.
    assert (parse ("${" +:+ name +:+ ":" +:+ String c rest) = None) as Hp.
    { unfold parse. norm_app.
      rewrite (span_unique name_char name); [|done..].
      destruct name as [|x name]; [done|]. simpl.
      apply Ascii.eqb_neq in Hc. by rewrite Hc. }
    assert (Str.mem "$" ("{" +:+ name +:+ ":") = false) as Hmem.
    { change ("{" +:+ name +:+ ":") with (String "{" (name +:+ ":")).
      cbn [Str.mem]. by rewrite mem_app, Hfree. }
    pose proof (interpolate_text_app environ _ (String c rest) Hmem) as Ht.
    rewrite interpolate_step, Hp.
    simpl in Ht |- *. rewrite app_assoc in Ht. simpl in Ht. rewrite Ht.
    destruct (_interpolate_string environ (String c rest)); [|done].
    simpl. by rewrite app_assoc.
  - intros rest.
    assert (parse ("${}" +:+ rest) = None) as Hp by reflexivity.
    pose proof (interpolate_text_app environ "{}" rest eq_refl) as Ht.
    rewrite interpolate_step, Hp. simpl in Ht |- *. rewrite Ht.
    by destruct (_interpolate_string environ rest).
  - intros rest.
    assert (parse ("${:" +:+ rest) = None) as Hp by reflexivity.
    pose proof (interpolate_text_app environ "{:" rest eq_refl) as Ht.
    rewrite interpolate_step, Hp. simpl in Ht |- *. rewrite Ht.
    by destruct (_interpolate_string environ rest).
Qed.

(** The theorem at work on [${PORT:8080}] with PORT set and on [${:-d}]. *)
Lemma interpolate_string_not_a_placeholder_witness :
  _interpolate_string {[ "PORT" := "80" ]} "${PORT:8080}" = Ok "${PORT:8080}" /\
  _interpolate_string {[ "PORT" := "80" ]} "${:-d}" = Ok "${:-d}".
Proof.
  pose proof (interpolate_string_not_a_placeholder {[ "PORT" := "80" ]})
    as (Hcolon & _ & Hempty).
  split.
  - refine (eq_trans (Hcolon "PORT" "8"%char "080}" _ _ _) _);
      [by split | done | done | by vm_compute].
  - refine (eq_trans (Hempty "-d}") _). by vm_compute.
Defined.

End InterpolateMore.

(* ================================================================== *)
(** * More about the connector *)

Module FabricMore.
Import Py Json Fabric FabricInit FabricFacts.

(** Case analysis on every test of a computation, the cases kept as
    equations. *)
Ltac cases :=
  repeat (cbn;
    match goal with
    | |- context [if ?b then _ else _] => destruct b eqn:?
    | |- context [match assoc ?k ?l with _ => _ end] =>
        destruct (assoc k l) eqn:?
    end);
  cbn.

(** X5: the exact conditions of the two outcomes that a peer can bring
    about.  A call reports [Success] if and only if the three values are
    present, the network answers, the status is not 4xx or 5xx, and the body
    parses to a JSON object without the key [error] whose [result] is
    truthy; it reports [RpcError] if and only if the same holds up to the
    body, which parses to a JSON object with the key [error]. *)
Theorem send_coordinates_success_iff (self : GPSFabricConnector) (w : world) :
  (outcomes (send_coordinates self w).1 = [Success] <->
   some_coordinate_is_None w = false /\
   exists resp items v,
     network w (request_of self w) = Ok resp /\
     ~ (400 <= status_code resp < 600)%Z /\
     body_json resp = Ok (JObj items) /\
     assoc "error" items = None /\
     assoc "result" items = Some v /\
     truthy v = true) /\
  (outcomes (send_coordinates self w).1 = [RpcError] <->
   some_coordinate_is_None w = false /\
   exists resp items payload,
     network w (request_of self w) = Ok resp /\
     ~ (400 <= status_code resp < 600)%Z /\
     body_json resp = Ok (JObj items) /\
     assoc "error" items = Some payload).
Proof.
  destruct (some_coordinate_is_None w) eqn:Hv.
  { rewrite (send_coordinates_invalid self w Hv).
    split; split; (try by intros [? _]); done. }
  rewrite (outcomes_valid self w Hv).
  run_io. fold (request_of self w).
  destruct (network w (request_of self w)) as [[status body]|e] eqn:Hnet;
    cbn [status_code body_json].
  2:{ split; split; try (by intros (_ & ? & ? & ? & ? & _));
        destruct e; by cbn. }
  destruct ((400 <=? status)%Z && (status <? 600)%Z) eqn:Hs; cbn.
  { apply andb_true_iff in Hs as [H1 H2].
    split; split; try done;
      intros (_ & resp & ? & ? & [= <-] & Hn & _); cbn in Hn; lia. }
  assert (~ (400 <= status < 600)%Z) as Hstatus.
  { apply andb_false_iff in Hs. lia. }
  destruct body as [v|e]; cbn.
  2:{ split; split; try (by intros (_ & ? & ? & ? & [= <-] & _ & ? & _));
        destruct e; by cbn. }
  destruct v as [|b|z|f|s|l|items];
    try (split; split;
         [ by cases
         | by intros (_ & ? & ? & ? & [= <-] & _ & [=] & _)
         | by cases
         | by intros (_ & ? & ? & ? & [= <-] & _ & [=] & _) ]).
  cbn. destruct (assoc "error" items) as [payload|] eqn:He; cbn.
  - split; split; try done.
    + intros (_ & ? & ? & ? & [= <-] & _ & [= <-] & Hne & _). congruence.
    + intros _. split; [done|]. by exists (Response status (Ok (JObj items))), items, payload.
  - destruct (assoc "result" items) as [r|] eqn:Hr; cbn.
    + destruct (truthy r) eqn:Ht; cbn.
      * split; split; try done.
        -- intros _. split; [done|].
           by exists (Response status (Ok (JObj items))), items, r.
        -- intros (_ & ? & ? & ? & [= <-] & _ & [= <-] & Hne). congruence.
      * split; split; try done.
        -- intros (_ & ? & ? & ? & [= <-] & _ & [= <-] & _ & Hr' & Ht').
           congruence.
        -- intros (_ & ? & ? & ? & [= <-] & _ & [= <-] & Hne). congruence.
    + split; split; try done.
      * intros (_ & ? & ? & ? & [= <-] & _ & [= <-] & _ & Hr' & _). congruence.
      * intros (_ & ? & ? & ? & [= <-] & _ & [= <-] & Hne). congruence.
Qed.

(** X11: a request is posted exactly when none of the three values read is
    None, and it carries them.  Whatever [send_coordinates] posts has the
    body of a [omp2p_shareStatus] call whose latitude, longitude and yaw are
    the three values read, none of them None; and when none of the three
    values is None the call posts that request.  The validation tests for
    None only: a zero, as the latitude of the equator, is sent. *)
Theorem posts_carry_coordinates (self : GPSFabricConnector) (w : world) :
  (forall r,
     r ∈ posts (send_coordinates self w).1 ->
     dynamic_variable w "latitude" <> JNull /\
     dynamic_variable w "longitude" <> JNull /\
     dynamic_variable w "yaw_deg" <> JNull /\
     json r
     = JObj [("method", JStr "omp2p_shareStatus");
             ("params",
              JArr [JObj [("latitude", dynamic_variable w "latitude");
                          ("longitude", dynamic_variable w "longitude");
                          ("yaw", dynamic_variable w "yaw_deg")]]);
             ("id", JInt 1);
             ("jsonrpc", JStr "2.0")]) /\
  (dynamic_variable w "latitude" <> JNull ->
   dynamic_variable w "longitude" <> JNull ->
   dynamic_variable w "yaw_deg" <> JNull ->
   posts (send_coordinates self w).1
   = [ {| url := fabric_endpoint self;
          json :=
            JObj [("method", JStr "omp2p_shareStatus");
                  ("params",
                   JArr [JObj [("latitude", dynamic_variable w "latitude");
                               ("longitude", dynamic_variable w "longitude");
                               ("yaw", dynamic_variable w "yaw_deg")]]);
                  ("id", JInt 1);
                  ("jsonrpc", JStr "2.0")];
          headers := [("Content-Type", "application/json")];
          timeout := 10 |} ]).
Proof.
  rewrite posts_send_coordinates. unfold some_coordinate_is_None.
  split.
  - intros r.
    destruct (_ || _) eqn:Hv.
    + intros Hr. by apply elem_of_nil in Hr.
    + intros Hr. apply list_elem_of_singleton in Hr as ->.
      apply orb_false_iff in Hv as [Hv Hyaw].
      apply orb_false_iff in Hv as [Hlat Hlon].
      repeat split; try done; intros Hnull; by rewrite Hnull in *.
  - intros Hlat Hlon Hyaw.
    assert (is_None (dynamic_variable w "latitude")
            || is_None (dynamic_variable w "longitude")
            || is_None (dynamic_variable w "yaw_deg") = false) as ->; [|done].
    by destruct (dynamic_variable w "latitude"),
      (dynamic_variable w "longitude"), (dynamic_variable w "yaw_deg").
Qed.

(** The theorem at work on the position (0, 0) with yaw 0 and a network
    that times out: the request with the three zeros is posted. *)
Lemma posts_carry_coordinates_witness :
  posts
    (send_coordinates (Connector "http://localhost:8545")
       (World {[ "latitude" := JInt 0; "longitude" := JInt 0;
                 "yaw_deg" := JInt 0 ]}
          (fun _ => Raise ReqTimeout))).1
  = [ {| url := "http://localhost:8545";
         json :=
           JObj [("method", JStr "omp2p_shareStatus");
                 ("params",
                  JArr [JObj [("latitude", JInt 0);
                              ("longitude", JInt 0);
                              ("yaw", JInt 0)]]);
                 ("id", JInt 1);
                 ("jsonrpc", JStr "2.0")];
         headers := [("Content-Type", "application/json")];
         timeout := 10 |} ].
Proof.
  destruct (posts_carry_coordinates (Connector "http://localhost:8545")
    (World {[ "latitude" := JInt 0; "longitude" := JInt 0;
              "yaw_deg" := JInt 0 ]} (fun _ => Raise ReqTimeout)))
    as [_ Hposts].
  refine (eq_trans (Hposts _ _ _) _); by vm_compute.
Defined.

Section Caller.
Context {GPSAction : Type} `{EqDecision GPSAction}.
Variable SHARE_LOCATION : GPSAction.
Variable format_action : GPSAction -> string.

(** X6: [connect] never raises and never retries.  For every action, every
    state of the provider and every behaviour of the network it returns
    None, its first event is the log record of the action, it posts at most
    one request and reports at most one outcome; and it reports exactly one
    outcome when the action is [SHARE_LOCATION]. *)
Theorem connect_returns (self : GPSFabricConnector) (w : world)
    (output_interface : GPSInput) :
  (connect SHARE_LOCATION format_action self w output_interface).2 = Ok tt /\
  (exists rest,
     (connect SHARE_LOCATION format_action self w output_interface).1
     = (EvLog INFO (MsgAction (format_action (action output_interface)))
        :: rest)%list) /\
  List.length
    (posts (connect SHARE_LOCATION format_action self w output_interface).1)
  <= 1 /\
  List.length
    (outcomes (connect SHARE_LOCATION format_action self w output_interface).1)
  = (if decide (action output_interface = SHARE_LOCATION) then 1 else 0).
Proof.
  unfold connect, logging_info. cbn [mbind io_bind].
  destruct (decide (action output_interface = SHARE_LOCATION)) as [Ha|Ha].
  - destruct (some_coordinate_is_None w) eqn:Hv.
    + rewrite (send_coordinates_invalid self w Hv). cbn.
      split; [done|]. split; [by eexists|]. split; [lia | done].
    + destruct (send_coordinates_valid self w Hv) as (l & m & o & -> & _ & Ho).
      cbn [fst snd app]. split; [done|]. split; [by eexists|].
      split; [cbn; lia|].
      change (outcomes (EvLog INFO (MsgAction (format_action (action output_interface)))
                :: fetch_trace w ++ [EvPost (request_of self w); EvLog l m])%list)
        with (outcomes [EvLog l m]).
      unfold outcomes. cbn [omap list_omap]. by rewrite Ho.
  - cbn. split; [done|]. split; [by eexists|]. split; [lia | done].
Qed.
End Caller.

(** X7: a connector built from a configuration sends every request to the
    endpoint of that configuration, whatever the provider holds and the
    network does; built from the default configuration it sends to
    [http://localhost:8545]. *)
Theorem init_endpoint (config : GPSFabricConfig) (w : world) :
  Forall (fun r => url r = config_fabric_endpoint config)
    (posts (send_coordinates (__init__ config) w).1) /\
  Forall (fun r => url r = "http://localhost:8545")
    (posts (send_coordinates (__init__ default_config) w).1).
Proof.
  rewrite !posts_send_coordinates.
  destruct (some_coordinate_is_None w); by repeat constructor.
Qed.

End FabricMore.

(* ================================================================== *)
(** * The conversation exporter *)

Module ExporterFacts.
Import Json Exporter StrFacts.

(** An indexed map by functions that are injective at every index is
    injective. *)
Lemma imap_inj {A B : Type} (f : nat -> A -> B) (l l' : list A) :
  (forall i x y, f i x = f i y -> x = y) ->
  imap f l = imap f l' -> l = l'.
Proof.
  revert f l'. induction l as [|x l IH]; intros f l' Hf H.
  - by destruct l'.
  - destruct l' as [|y l']; [done|].
    rewrite !imap_cons in H. injection H as Hxy H.
    f_equal; [by eapply Hf|].
    apply (IH (f ∘ S)); [|done]. intros i a b. apply Hf.
Qed.

Section Exporting.
Context {datetime : Type}.
Variable strftime : datetime -> string -> string.
Variable isoformat : datetime -> string.
Variable Path : string -> string.

(** X8: the data that [export_to_json] dumps lose nothing of the
    conversation.  The array under [messages] has one entry for each
    message, in order, with the role, the content and the position counted
    from 0 under [index]; [message_count] is the length of that array; and
    two exports with the same data have the same agent name, the same time
    stamp and the same messages. *)
Theorem export_data_lossless (agent_name : string) (export_time : datetime)
    (messages : list ChatMessage) :
  (exists metadata entries,
      Json.getitem (export_data isoformat agent_name export_time messages)
        "metadata" = Py.Ok metadata /\
      Json.getitem (export_data isoformat agent_name export_time messages)
        "messages" = Py.Ok (JArr entries) /\
      Json.getitem metadata "message_count"
      = Py.Ok (JInt (Z.of_nat (List.length entries))) /\
      List.length entries = List.length messages /\
      forall k,
        entries !! k
        = (fun msg => JObj [("role", JStr (role msg));
                            ("content", JStr (content msg));
                            ("index", JInt (Z.of_nat k))]) <$> messages !! k) /\
  (forall agent_name' export_time' messages',
      export_data isoformat agent_name export_time messages
      = export_data isoformat agent_name' export_time' messages' ->
      agent_name = agent_name' /\
      isoformat export_time = isoformat export_time' /\
      messages = messages').
Proof.
  split.
  - eexists _, (message_entries messages). cbn.
    split; [done|]. split; [done|].
    unfold message_entries. rewrite length_imap.
    split; [done|]. split; [done|].
    intros k. apply list_lookup_imap.
  - intros a' t' ms' H. unfold export_data in H.
    injection H as Ha Ht _ Hms.
    split; [done|]. split; [done|].
    apply (imap_inj _ _ _) in Hms; [done|].
    intros i [r c] [r' c'] [= -> ->]. done.
Qed.

(** X9: the Markdown export can be read in two ways.  Contents are written
    as they are, so a content that holds a heading line is taken for the
    start of a message: the two conversations below, of two messages each,
    differ and are exported to the same text. *)
Theorem markdown_content_collision (agent_name : string)
    (export_time : datetime) (r1 r2 r3 a b c : string) :
  markdown_content strftime agent_name export_time
    [ {| role := r1;
         content := a +:+ NL +:+ NL +:+ "## Message 2 (" +:+ r2 +:+ ")"
                      +:+ NL +:+ NL +:+ b |};
      {| role := r3; content := c |} ]
  = markdown_content strftime agent_name export_time
      [ {| role := r1; content := a |};
        {| role := r2;
           content := b +:+ NL +:+ NL +:+ "## Message 2 (" +:+ r3 +:+ ")"
                        +:+ NL +:+ NL +:+ c |} ] /\
  [ {| role := r1;
       content := a +:+ NL +:+ NL +:+ "## Message 2 (" +:+ r2 +:+ ")"
                    +:+ NL +:+ NL +:+ b |};
    {| role := r3; content := c |} ]
  <> [ {| role := r1; content := a |};
       {| role := r2;
          content := b +:+ NL +:+ NL +:+ "## Message 2 (" +:+ r3 +:+ ")"
                       +:+ NL +:+ NL +:+ c |} ].
Proof.
  split.
  - unfold markdown_content, markdown_lines, message_lines.
    cbn [imap List.concat app join role content List.length compose].
    change (pretty 2) with "2". change (pretty 1) with "1".
    unfold NL. repeat (simpl; rewrite ?app_assoc). done.
  - intros [= H _].
    apply (f_equal String.length) in H.
    rewrite !length_app in H. unfold NL in H. simpl in H. lia.
Qed.

(** X10: how the two exporters end.  Each makes one attempt to write one
    file, the one at [Path(output_path)] when [output_path] is given and
    else at [Path] of the name made of the clock: the path as [pathlib]
    writes it is what is opened and what the record of success prints.  It
    returns a path only when the write went through, and then the absolute
    path of that file, after one record of success; every exception of the
    write is raised to the caller, after an error record exactly when it is
    an [IOError], and no record of success is written after a failed
    write. *)
Theorem export_outcome (w : world) (messages : list ChatMessage)
    (agent_name output_path : option string) :
  let json := export_to_json strftime isoformat Path w messages agent_name
                output_path in
  let md := export_to_markdown strftime Path w messages agent_name output_path in
  (exists d, writes json.1 = [(Path (target strftime w ".json" output_path), d)] /\
     (json.2 = match Exporter.write w (Path (target strftime w ".json" output_path)) d with
               | Some e => Raised e
               | None => absolute w (Path (target strftime w ".json" output_path))
               end) /\
     infos json.1
     = match Exporter.write w (Path (target strftime w ".json" output_path)) d with
       | Some _ => []
       | None => [MsgExported (List.length messages)
                    (Path (target strftime w ".json" output_path))]
       end) /\
  errors json.1
  = match json.2 with
    | Raised (IOError detail) => [MsgFailedJson (IOError detail)]
    | _ => []
    end /\
  (exists d, writes md.1 = [(Path (target strftime w ".md" output_path), d)] /\
     (md.2 = match Exporter.write w (Path (target strftime w ".md" output_path)) d with
             | Some e => Raised e
             | None => absolute w (Path (target strftime w ".md" output_path))
             end) /\
     infos md.1
     = match Exporter.write w (Path (target strftime w ".md" output_path)) d with
       | Some _ => []
       | None => [MsgExported (List.length messages)
                    (Path (target strftime w ".md" output_path))]
       end) /\
  errors md.1
  = match md.2 with
    | Raised (IOError detail) => [MsgFailedMarkdown (IOError detail)]
    | _ => []
    end.
Proof.
  unfold export_to_json, export_to_markdown, target.
  destruct output_path as [p|]; cbn zeta.
  - split; [|split; [|split]].
    + eexists. destruct (Exporter.write w (Path p) _) as [[?|?]|] eqn:Hw;
        [by rewrite Hw..|].
      destruct (absolute w (Path p)) as [?|[?|?]] eqn:Ha; by rewrite Hw, ?Ha.
    + destruct (Exporter.write w (Path p) _) as [[?|?]|]; [done..|].
      by destruct (absolute w (Path p)) as [?|[?|?]].
    + eexists. destruct (Exporter.write w (Path p) _) as [[?|?]|] eqn:Hw;
        [by rewrite Hw..|].
      destruct (absolute w (Path p)) as [?|[?|?]] eqn:Ha; by rewrite Hw, ?Ha.
    + destruct (Exporter.write w (Path p) _) as [[?|?]|]; [done..|].
      by destruct (absolute w (Path p)) as [?|[?|?]].
  - split; [|split; [|split]].
    + eexists. destruct (Exporter.write w _ _) as [[?|?]|] eqn:Hw;
        [by rewrite Hw..|].
      destruct (absolute w _) as [?|[?|?]] eqn:Ha; by rewrite Hw, ?Ha.
    + destruct (Exporter.write w _ _) as [[?|?]|]; [done..|].
      by destruct (absolute w _) as [?|[?|?]].
    + eexists. destruct (Exporter.write w _ _) as [[?|?]|] eqn:Hw;
        [by rewrite Hw..|].
      destruct (absolute w _) as [?|[?|?]] eqn:Ha; by rewrite Hw, ?Ha.
    + destruct (Exporter.write w _ _) as [[?|?]|]; [done..|].
      by destruct (absolute w _) as [?|[?|?]].
Qed.
End Exporting.

End ExporterFacts.
